(** * cfg-manager: the path-addressed configuration store

    A shallow embedding of [pkg/config] (config.go, utils.go, types.go):
    the dot-path resolver [getNestedMap], the key normalizer
    [transformMapKeys], the accessors [Get], [Has], [GetBool], and the
    mutators [Set], [Delete], [Load], [MergeMap].

    Modelling conventions.
    - A Go [map[string]interface{}] is an association list.  The order of the
      list is the order in which a [range] loop visits the entries.  Go leaves
      that order unspecified: a statement proved for every list holds for
      every order, and a computed example fixes one order that the runtime
      can take.  [m[k]] is the first binding of [k]; [m[k] = v] overwrites
      the binding in place or appends one; [delete(m, k)] drops every
      binding of [k].
    - Go maps are references.  The tree is modelled as a value without
      sharing between its nodes (spec section 3), and a write through a
      nested map becomes a rebuild of the path that leads to it. What is
      stated of the bindings beside the path of a write is about trees in
      which no map is held under two keys.
    - Keys are byte strings. [ToLower] and [EqualFold] fold the letters
      A-Z, which is what [strings.ToLower] and [strings.EqualFold] do on
      strings of ASCII bytes; a statement that rests on what the folding
      finds is made for ASCII keys and segments ([ascii_string],
      [path_clear]). A statement that holds whatever key the folding picks
      carries no such condition.
    - A method with a pointer receiver is a function from the manager to
      its result and the manager it leaves.
    - utils.go carries its helpers in two revisions, and both are embedded;
      the functions that call them take the revision as a parameter. *)

From Stdlib Require Import String Ascii List Bool ZArith Lia PrimFloat DecimalString.
Import ListNotations.
Open Scope string_scope.
Open Scope list_scope.

Set Warnings "-register-all".

(** ** Strings: [strings.ToLower], [strings.EqualFold], [strings.Split] *)

Definition is_upper (c : ascii) : bool :=
  let n := nat_of_ascii c in (65 <=? n)%nat && (n <=? 90)%nat.

Definition lower_ascii (c : ascii) : ascii :=
  if is_upper c then ascii_of_nat (nat_of_ascii c + 32) else c.

Fixpoint ToLower (s : string) : string :=
  match s with
  | EmptyString => EmptyString
  | String c s' => String (lower_ascii c) (ToLower s')
  end.

Definition EqualFold (s t : string) : bool := String.eqb (ToLower s) (ToLower t).

(** [strings.Split(path, ".")]: never empty, [Split("", ".")] is [[""]]. *)
Fixpoint Split (s : string) : list string :=
  match s with
  | EmptyString => [EmptyString]
  | String c s' =>
      if Ascii.eqb c "."%char then EmptyString :: Split s'
      else match Split s' with
           | h :: t => String c h :: t
           | [] => [String c EmptyString]
           end
  end.

(** ** Dynamic values

    The dynamic types that the type switches of the package name, and
    [VOther] for any other dynamic type (known by the name [%T] prints). *)

(** Keys of a [map[interface{}]interface{}]. A key that is neither a string,
    an integer nor a bool is kept as the text [%v] renders for it. *)
Inductive mkey : Type :=
| KString (s : string)
| KInt (n : Z)
| KBool (b : bool)
| KFloat (rendered : string)
| KOther (rendered : string).

Inductive value : Type :=
| VNil
| VString (s : string)
| VBytes (s : string)
| VBool (b : bool)
| VInt (n : Z)
| VInt32 (n : Z)
| VInt64 (n : Z)
| VFloat64 (f : float)
| VFloat32 (f : float)
| VStrings (l : list string)
| VSlice (l : list value)
| VMap (m : list (string * value))
| VIMap (m : list (mkey * value))
| VOther (type_name : string).

Definition smap : Type := list (string * value).
Definition imap : Type := list (mkey * value).

Section value_induction.
Variable P : value -> Prop.
Hypothesis HNil : P VNil.
Hypothesis HString : forall s, P (VString s).
Hypothesis HBytes : forall s, P (VBytes s).
Hypothesis HBool : forall b, P (VBool b).
Hypothesis HInt : forall n, P (VInt n).
Hypothesis HInt32 : forall n, P (VInt32 n).
Hypothesis HInt64 : forall n, P (VInt64 n).
Hypothesis HFloat64 : forall f, P (VFloat64 f).
Hypothesis HFloat32 : forall f, P (VFloat32 f).
Hypothesis HStrings : forall l, P (VStrings l).
Hypothesis HSlice : forall l, Forall P l -> P (VSlice l).
Hypothesis HMap : forall m, Forall (fun kv => P (snd kv)) m -> P (VMap m).
Hypothesis HIMap : forall m, Forall (fun kv => P (snd kv)) m -> P (VIMap m).
Hypothesis HOther : forall t, P (VOther t).

Fixpoint value_nested_ind (v : value) : P v :=
  match v with
  | VNil => HNil
  | VString s => HString s
  | VBytes s => HBytes s
  | VBool b => HBool b
  | VInt n => HInt n
  | VInt32 n => HInt32 n
  | VInt64 n => HInt64 n
  | VFloat64 f => HFloat64 f
  | VFloat32 f => HFloat32 f
  | VStrings l => HStrings l
  | VSlice l =>
      HSlice l ((fix go (l : list value) : Forall P l :=
                 match l with
                 | [] => Forall_nil _
                 | x :: r => Forall_cons x (value_nested_ind x) (go r)
                 end) l)
  | VMap m =>
      HMap m ((fix go (m : smap) : Forall (fun kv => P (snd kv)) m :=
               match m with
               | [] => Forall_nil _
               | kv :: r => Forall_cons kv (value_nested_ind (snd kv)) (go r)
               end) m)
  | VIMap m =>
      HIMap m ((fix go (m : imap) : Forall (fun kv => P (snd kv)) m :=
                match m with
                | [] => Forall_nil _
                | kv :: r => Forall_cons kv (value_nested_ind (snd kv)) (go r)
                end) m)
  | VOther t => HOther t
  end.
End value_induction.

(** ** Operations on [map[string]interface{}] *)

(** [v, exists := m[k]] *)
Fixpoint lookup (m : smap) (k : string) : option value :=
  match m with
  | [] => None
  | (k', v) :: r => if String.eqb k' k then Some v else lookup r k
  end.

(** [m[k] = v] *)
Fixpoint insert (k : string) (v : value) (m : smap) : smap :=
  match m with
  | [] => [(k, v)]
  | (k', v') :: r => if String.eqb k' k then (k, v) :: r else (k', v') :: insert k v r
  end.

(** [delete(m, k)] *)
Fixpoint remove (k : string) (m : smap) : smap :=
  match m with
  | [] => []
  | (k', v') :: r => if String.eqb k' k then remove k r else (k', v') :: remove k r
  end.

(** [for k := range m { if strings.EqualFold(k, key) { key = k; found = true; break } }] *)
Fixpoint find_fold (m : smap) (key : string) : option string :=
  match m with
  | [] => None
  | (k, _) :: r => if EqualFold k key then Some k else find_fold r key
  end.

(** [fmt.Sprintf("%v", k)] on a map key. *)
Definition Sprint_key (k : mkey) : string :=
  match k with
  | KString s => s
  | KInt n => NilZero.string_of_int (Z.to_int n)
  | KBool true => "true"
  | KBool false => "false"
  | KFloat r => r
  | KOther r => r
  end.

(** [fmt.Sprintf] with the verbs [%d], [%g], [%t] on a key of the matching
    type; they print what [%v] prints. *)
Definition Sprintf_d (n : Z) : string := NilZero.string_of_int (Z.to_int n).
Definition Sprintf_t (b : bool) : string := if b then "true" else "false".
Definition Sprintf_g (rendered : string) : string := rendered.

(** ** The key normalizer, utils.go

    [Rev1] is the text of utils.go at lines 1-146 ([getNestedMap] at 52-118,
    [transformMapKeys] at 120-146); [Rev2] is the text at lines 147-337
    ([getNestedMap] at 216-283, [transformMapKeys] at 296-337). *)
Inductive revision : Type := Rev1 | Rev2.

Section build.
Variables (K : Type) (strKey : K -> string) (g : value -> value).

(** [m := make(map[string]interface{}); for k, val := range x { m[strKey(k)] = g(val) }],
    started from the map [acc]. *)
Fixpoint build_map (x : list (K * value)) (acc : smap) : smap :=
  match x with
  | [] => acc
  | (k, val) :: r => build_map r (insert (strKey k) (g val) acc)
  end.
End build.
Arguments build_map {K} strKey g x acc.

(** The key conversion of each revision: [Rev1] asserts a string and falls
    back on [%v]; [Rev2] switches on the key's type. *)
Definition key_string (rev : revision) (k : mkey) : string :=
  match rev with
  | Rev1 => match k with
            | KString s => s
            | _ => Sprint_key k
            end
  | Rev2 => match k with
            | KString key => key
            | KInt key => Sprintf_d key
            | KFloat key => Sprintf_g key
            | KBool key => Sprintf_t key
            | KOther _ => Sprint_key k
            end
  end.

(** [Rev1] writes the normalized elements of a sequence into the sequence
    it was given and returns it, [Rev2] returns a new one: the value
    returned is the same. *)
Fixpoint transformMapKeys (rev : revision) (v : value) : value :=
  match v with
  | VIMap x => VMap (build_map (key_string rev) (transformMapKeys rev) x [])
  | VMap x => VMap (build_map (fun k : string => k) (transformMapKeys rev) x [])
  | VSlice x => VSlice (map (transformMapKeys rev) x)
  | _ => v
  end.

(** Every mapping node of [v] is keyed by strings. *)
Fixpoint string_keyed (v : value) : bool :=
  match v with
  | VIMap _ => false
  | VMap m => forallb (fun kv => let '(_, x) := kv in string_keyed x) m
  | VSlice l => forallb string_keyed l
  | _ => true
  end.

(** ** Errors, types.go *)

Inductive err : Type :=
| ErrInvalidPath
| ErrKeyNotFoundInPath (key path : string)
| ErrNotAMap (key path : string)
| ErrKeyNotString (key path : string)
| ErrKeyNotFound (key : string)
| ErrCannotConvert (from to : string)
| ErrKeyCannotBeEmpty
| ErrEmptyKey
| ErrDeleteKeyNotFound
| ErrUnsupportedFormat (format : string)
| ErrUnexpectedYAML
| ErrYAMLConversion
| ErrDecode (msg : string)
| ErrRead (msg : string).

Record ConfigError : Type := mkConfigError {
  Operation : string;
  Key : string;
  Err : err
}.

Inductive result (E A : Type) : Type :=
| Ok (a : A)
| Error (e : E).
Arguments Ok {E A} a.
Arguments Error {E A} e.

Definition bind_result {E A B} (r : result E A) (k : A -> result E B) : result E B :=
  match r with
  | Ok a => k a
  | Error e => Error e
  end.

Notation "x <-- r ;; k" := (bind_result r (fun x => k))
  (at level 61, r at next level, right associativity).

(** The error kinds of spec section 7. *)
Definition not_found (e : ConfigError) : bool :=
  match Err e with
  | ErrKeyNotFoundInPath _ _ | ErrKeyNotFound _ | ErrDeleteKeyNotFound => true
  | _ => false
  end.

Definition conversion_error (e : ConfigError) : bool :=
  match Err e with
  | ErrCannotConvert _ _ => true
  | _ => false
  end.

Definition format_error (e : ConfigError) : bool :=
  match Err e with
  | ErrUnsupportedFormat _ => true
  | _ => false
  end.

(** ** The path resolver, utils.go [getNestedMap]

    The resolver returns a Go map, that is a reference. A reference into the
    tree is the list of the keys that lead to it from the root
    ([loc_keys]), together with the contents found there ([loc_map]).
    [loc_detached] tells that the map is the fresh one built at lines 95-102
    (260-267) from a [map[interface{}]interface{}], which the tree does not
    hold. *)
Record location : Type := mkLocation {
  loc_keys : list string;
  loc_map : smap;
  loc_detached : bool
}.

(** Lines 95-102: the copy fails on the first key that is not a string. *)
Fixpoint strict_copy (iFaceMap : imap) (nestedMap : smap) : option smap :=
  match iFaceMap with
  | [] => Some nestedMap
  | (KString strKey, v) :: r => strict_copy r (insert strKey v nestedMap)
  | _ :: _ => None
  end.

(** Lines 69-81. *)
Definition fold_segment (caseSensitive : bool) (path : string) (current : smap)
    (key : string) : result err string :=
  if caseSensitive then Ok key
  else match find_fold current key with
       | Some k => Ok k
       | None => Error (ErrKeyNotFoundInPath key path)
       end.

(** Lines 88-103. *)
Definition nested (path key : string) (val : value) : result err (smap * bool) :=
  match val with
  | VMap nestedMap => Ok (nestedMap, false)
  | VIMap iFaceMap =>
      match strict_copy iFaceMap [] with
      | Some nestedMap => Ok (nestedMap, true)
      | None => Error (ErrKeyNotString key path)
      end
  | _ => Error (ErrNotAMap key path)
  end.

(** The loop of lines 66-106 over [keys[0 .. lastIndex-1]]. *)
Fixpoint walk (caseSensitive : bool) (path : string) (current : smap) (detached : bool)
    (keys : list string) : result err location :=
  match keys with
  | [] => Ok (mkLocation [] current detached)
  | key :: rest =>
      key <-- fold_segment caseSensitive path current key ;;
      match lookup current key with
      | None => Error (ErrKeyNotFoundInPath key path)
      | Some val =>
          nd <-- nested path key val ;;
          loc <-- walk caseSensitive path (fst nd) (snd nd) rest ;;
          Ok (mkLocation (key :: loc_keys loc) (loc_map loc) (loc_detached loc))
      end
  end.

(** Lines 108-115, and the same loop in [Get] and [Delete]. *)
Definition fold_last (caseSensitive : bool) (current : smap) (lastKey : string) : string :=
  if caseSensitive then lastKey
  else match find_fold current lastKey with
       | Some k => k
       | None => lastKey
       end.

(** The nil map of [return nil, "", nil]: it reads as the empty map. *)
Definition nil_location : location := mkLocation [] [] true.

Definition getNestedMap_keys (rev : revision) (data : smap) (path : string)
    (keys : list string) (caseSensitive : bool) : result err (location * string) :=
  match keys with
  | [] => Error ErrInvalidPath
  | _ :: _ =>
      let lastKey := last keys "" in
      match removelast keys with
      | [] => Ok (mkLocation [] data false, lastKey)
      | inner =>
          loc <-- walk caseSensitive path data false inner ;;
          let lastKey := fold_last caseSensitive (loc_map loc) lastKey in
          match rev with
          | Rev1 => Ok (nil_location, "")
          | Rev2 => Ok (loc, lastKey)
          end
      end
  end.

Definition getNestedMap (rev : revision) (data : smap) (path : string)
    (caseSensitive : bool) : result err (location * string) :=
  getNestedMap_keys rev data path (Split path) caseSensitive.

(** ** The manager, types.go and config.go *)

Definition Format : Type := string.
Definition FormatJSON : Format := "json".
Definition FormatYAML : Format := "yaml".
Definition FormatYML : Format := "yml".

Record Manager : Type := mkManager {
  data : smap;
  filePath : string;
  fileFormat : Format;
  caseSensitive : bool
}.

Definition New : Manager := mkManager [] "" "" true.

Definition WithCaseSensitive (sensitive : bool) (m : Manager) : Manager :=
  mkManager (data m) (filePath m) (fileFormat m) sensitive.

Definition with_data (m : Manager) (d : smap) : Manager :=
  mkManager d (filePath m) (fileFormat m) (caseSensitive m).

(** A method with receiver [m *Manager] takes the manager and gives back
    its result and the manager it leaves. *)
Definition M (A : Type) : Type := Manager -> A * Manager.

Definition ret {A} (a : A) : M A := fun m => (a, m).
Definition bind {A B} (c : M A) (k : A -> M B) : M B :=
  fun m => let (a, m') := c m in k a m'.
Definition get_manager : M Manager := fun m => (m, m).
Definition put_data (d : smap) : M unit := fun m => (tt, with_data m d).
Definition eval {A} (c : M A) (m : Manager) : A := fst (c m).
Definition exec {A} (c : M A) (m : Manager) : Manager := snd (c m).

Notation "x <- c ;; k" := (bind c (fun x => k))
  (at level 61, c at next level, right associativity).
Notation "c ;; k" := (bind c (fun _ => k))
  (at level 61, right associativity).

Section methods.
Variable rev : revision.

(** config.go 123-156 *)
Definition Get (key : string) : M (result ConfigError value) :=
  m <- get_manager ;;
  if String.eqb key "" then ret (Ok (VMap (data m)))
  else
    match getNestedMap rev (data m) key (caseSensitive m) with
    | Error e => ret (Error (mkConfigError "get nested map" key e))
    | Ok (parentMap, lastKey) =>
        let lastKey := fold_last (caseSensitive m) (loc_map parentMap) lastKey in
        match lookup (loc_map parentMap) lastKey with
        | None => ret (Error (mkConfigError "get value" key (ErrKeyNotFound key)))
        | Some value => ret (Ok value)
        end
    end.

(** [%T] *)
Definition type_name (v : value) : string :=
  match v with
  | VNil => "<nil>"
  | VString _ => "string"
  | VBytes _ => "[]uint8"
  | VBool _ => "bool"
  | VInt _ => "int"
  | VInt32 _ => "int32"
  | VInt64 _ => "int64"
  | VFloat64 _ => "float64"
  | VFloat32 _ => "float32"
  | VStrings _ => "[]string"
  | VSlice _ => "[]interface {}"
  | VMap _ => "map[string]interface {}"
  | VIMap _ => "map[interface {}]interface {}"
  | VOther t => t
  end.

Definition one_of (s : string) (l : list string) : bool := existsb (String.eqb s) l.

(** The type switch of [GetBool], config.go 180-205. *)
Definition to_bool (key : string) (value : value) : result ConfigError bool :=
  match value with
  | VBool v => Ok v
  | VInt v => Ok (negb (Z.eqb v 0))
  | VFloat64 v => Ok (negb (PrimFloat.eqb v 0%float))
  | VString v =>
      let lower := ToLower v in
      if one_of lower ["true"; "1"; "yes"; "y"; "on"] then Ok true
      else if one_of lower ["false"; "0"; "no"; "n"; "off"] then Ok false
      else Error (mkConfigError "convert" key (ErrCannotConvert "string" "bool"))
  | _ => Error (mkConfigError "convert" key (ErrCannotConvert (type_name value) "bool"))
  end.

(** config.go 174-206 *)
Definition GetBool (key : string) : M (result ConfigError bool) :=
  r <- Get key ;;
  match r with
  | Error e => ret (Error e)
  | Ok value => ret (to_bool key value)
  end.

(** The loop of [Set] over [keys[0 .. lastIndex-1]] and the final
    assignment; the result is the map [current] after the writes that the
    loop makes in it and below it. *)
Fixpoint set_walk (current : smap) (keys : list string) (lastKey : string)
    (value : value) : smap :=
  match keys with
  | [] => insert lastKey value current
  | k :: rest =>
      match lookup current k with
      | None => insert k (VMap (set_walk [] rest lastKey value)) current
      | Some (VMap nextMap) => insert k (VMap (set_walk nextMap rest lastKey value)) current
      | Some (VIMap iFaceMap) =>
          let nextMap := build_map (key_string Rev1) (fun iv => iv) iFaceMap [] in
          insert k (VMap (set_walk nextMap rest lastKey value)) current
      | Some _ => insert k (VMap (set_walk [] rest lastKey value)) current
      end
  end.

(** part_000 440-495. (The name [Set] is taken by the sort.) The branch
    [lastIndex == 0] is [set_walk] on no inner key. *)
Definition Set_ (key : string) (value : value) : M (result ConfigError unit) :=
  if String.eqb key "" then
    ret (Error (mkConfigError "set" key ErrKeyCannotBeEmpty))
  else
    m <- get_manager ;;
    let keys := Split key in
    put_data (set_walk (data m) (removelast keys) (last keys "") value) ;;
    ret (Ok tt).

(** part_000 497-500 *)
Definition Has (key : string) : M bool :=
  r <- Get key ;;
  match r with
  | Ok _ => ret true
  | Error _ => ret false
  end.

(** The tree after the map reached through [keys] has been changed by
    [f]. A map met on the way that is a [map[interface{}]interface{}]
    shares its values with the copy the resolver made of it, so a change
    below the copy is a change below the original. *)
Fixpoint write_at (current : smap) (keys : list string) (f : smap -> smap) : smap :=
  match keys with
  | [] => f current
  | k :: rest =>
      match lookup current k with
      | Some (VMap nestedMap) => insert k (VMap (write_at nestedMap rest f)) current
      | Some (VIMap iFaceMap) =>
          match rest, strict_copy iFaceMap [] with
          | _ :: _, Some nestedMap =>
              insert k (VIMap (map (fun kv => (KString (fst kv), snd kv))
                                   (write_at nestedMap rest f))) current
          | _, _ => current
          end
      | _ => current
      end
  end.

(** part_000 502-539 *)
Definition Delete (key : string) : M (result ConfigError unit) :=
  if String.eqb key "" then
    ret (Error (mkConfigError "delete" key ErrEmptyKey))
  else
    m <- get_manager ;;
    match getNestedMap rev (data m) key (caseSensitive m) with
    | Error e => ret (Error (mkConfigError "delete" key e))
    | Ok (parentMap, lastKey) =>
        let lastKey := fold_last (caseSensitive m) (loc_map parentMap) lastKey in
        match lookup (loc_map parentMap) lastKey with
        | None => ret (Error (mkConfigError "delete" key ErrDeleteKeyNotFound))
        | Some _ =>
            (if loc_detached parentMap then ret tt
             else put_data (write_at (data m) (loc_keys parentMap) (remove lastKey))) ;;
            ret (Ok tt)
        end
    end.

(** part_000 619-621 *)
Definition Clear : M unit := put_data [].

(** One iteration of the loop of [MergeMap] on the tree [d]. *)
Definition merge_entry (d : smap) (kv : string * value) : smap :=
  let (k, v) := kv in
  match lookup d k with
  | Some (VMap existingMap) =>
      match v with
      | VMap newMap => insert k (VMap (build_map (fun nk : string => nk) (fun nv => nv) newMap existingMap)) d
      | _ => insert k v d
      end
  | _ => insert k v d
  end.

(** part_000 627-642 *)
Definition MergeMap (data_ : smap) : M unit :=
  m <- get_manager ;;
  put_data (fold_left merge_entry data_ (data m)).

(** part_000 623-625 *)
Definition Merge (other : Manager) : M unit := MergeMap (data other).
End methods.

(** ** Loading, config.go 79-121

    The decoders are the external collaborators of spec section 6:
    [json_decode] and [yaml_decode] give the generic document that
    [json.Unmarshal] and [yaml.Unmarshal] build from the bytes, or the
    message of their error. *)
Section loading.
Variable json_decode : string -> result string value.
Variable yaml_decode : string -> result string value.
Variable rev : revision.

(** [json.Unmarshal(content, &m.data)] with [m.data] of type
    [map[string]interface{}]: encoding/json reuses a map that is not nil
    and keeps its entries; null sets the map to nil; a document that is
    not an object is a type error.

    Two things the embedding leaves out. An [Error] of [json_decode] is an
    error found before anything is stored (a syntax error, which
    encoding/json finds in its first pass over the bytes); an error that
    encoding/json reports after it has stored some entries (a number out
    of range inside the object) has no counterpart here, so nothing is
    stated below about the tree after a failed JSON load. The nil map left
    by null reads as the empty map; a write into it, which panics, is not
    represented. *)
Definition json_Unmarshal_into (content : string) (dst : smap) : result err smap :=
  match json_decode content with
  | Error msg => Error (ErrDecode msg)
  | Ok (VMap object) => Ok (build_map (fun k : string => k) (fun v => v) object dst)
  | Ok VNil => Ok []
  | Ok v => Error (ErrDecode (type_name v))
  end.

Definition Load (r : result string string) (format : Format) : M (result ConfigError unit) :=
  match r with
  | Error msg => ret (Error (mkConfigError "read file content" "" (ErrRead msg)))
  | Ok content =>
      m <- get_manager ;;
      let outcome : result err smap :=
        if String.eqb format FormatJSON then json_Unmarshal_into content (data m)
        else if String.eqb format FormatYAML || String.eqb format FormatYML then
          match yaml_decode content with
          | Error msg => Error (ErrDecode msg)
          | Ok (VMap mapData) => Ok mapData
          | Ok (VIMap mapData) =>
              match transformMapKeys rev (VIMap mapData) with
              | VMap strMap => Ok strMap
              | _ => Error ErrYAMLConversion
              end
          | Ok _ => Error ErrUnexpectedYAML
          end
        else Error (ErrUnsupportedFormat format) in
      match outcome with
      | Error e => ret (Error (mkConfigError "parse" "" e))
      | Ok d => fun m => (Ok tt, mkManager d (filePath m) format (caseSensitive m))
      end
  end.
End loading.

(** ** Notions used by the statements *)

Definition keys_of (m : smap) : list string := map fst m.

(** The keys of [current] that equal [segment] up to case are all the same
    key: the scan of lines 71-77 has one possible outcome, whatever the
    order of the [range]. *)
Definition fold_unique (current : smap) (segment : string) : bool :=
  match find_fold current segment with
  | None => true
  | Some k =>
      forallb (fun kv => implb (EqualFold (fst kv) segment) (String.eqb (fst kv) k)) current
  end.

(** [fold_unique] at every mapping that the segments [keys] lead through. *)
Fixpoint path_unique (current : smap) (keys : list string) : bool :=
  match keys with
  | [] => true
  | segment :: rest =>
      fold_unique current segment &&
      match find_fold current segment with
      | Some k =>
          match lookup current k with
          | Some (VMap nestedMap) => path_unique nestedMap rest
          | _ => true
          end
      | None => true
      end
  end.

(** The mapping that the resolver enters at a value (utils.go 88-103): a
    string-keyed mapping itself, the copy of a foreign-keyed mapping whose
    keys are all strings, nothing otherwise. *)
Definition as_mapping (val : value) : option smap :=
  match val with
  | VMap nestedMap => Some nestedMap
  | VIMap iFaceMap => strict_copy iFaceMap []
  | _ => None
  end.

(** Every byte of [s] is below 128. On two such strings
    [strings.EqualFold] is equality up to the case of the letters A-Z, and
    on one such string [strings.ToLower] lowers the letters A-Z. *)
Definition ascii_string (s : string) : bool :=
  forallb (fun c => (nat_of_ascii c <? 128)%nat) (list_ascii_of_string s).

(** The scans along [keys] have one outcome, and [EqualFold] decides them
    as [strings.EqualFold] does: at every mapping that the segments lead
    through, the segment and all the keys of the mapping are ASCII and the
    keys equal to the segment up to case are all the same key. The
    mappings are those the resolver enters, the copy of a foreign-keyed
    mapping included. *)
Fixpoint path_clear (current : smap) (keys : list string) : bool :=
  match keys with
  | [] => true
  | segment :: rest =>
      ascii_string segment && forallb ascii_string (keys_of current)
      && fold_unique current segment &&
      match find_fold current segment with
      | Some k =>
          match lookup current k with
          | Some val =>
              match as_mapping val with
              | Some nestedMap => path_clear nestedMap rest
              | None => true
              end
          | None => true
          end
      | None => true
      end
  end.


Definition is_string_key (k : mkey) : bool :=
  match k with
  | KString _ => true
  | _ => false
  end.

(** The tree [{"a": {"b": 1}}] of spec section 8. *)
Definition tree_ab : smap := [("a", VMap [("b", VInt 1)])].

(** The words that [GetBool] reads as true and as false. *)
Definition true_words : list string := ["true"; "1"; "yes"; "y"; "on"].
Definition false_words : list string := ["false"; "0"; "no"; "n"; "off"].

(** A manager that holds the tree [d]. *)
Definition manager_of (d : smap) (sensitive : bool) : Manager := mkManager d "" "" sensitive.

(** The conversion of part_000 479-486: every key rendered by [%v], the
    values as they are. *)
Definition stringify (iFaceMap : imap) : smap :=
  build_map (key_string Rev1) (fun iv => iv) iFaceMap [].

Definition all_string_keys (iFaceMap : imap) : bool :=
  forallb (fun kv => is_string_key (fst kv)) iFaceMap.

(** A tree with a foreign-keyed mapping that has the integer key 1. *)
Definition tree_foreign : smap :=
  [("a", VIMap [(KInt 1, VString "x"); (KString "b", VInt 2)])].

(** The binding that one iteration of [MergeMap] leaves under [k]. *)
Definition merged_value (d : smap) (k : string) (v : value) : value :=
  match lookup d k with
  | Some (VMap existingMap) =>
      match v with
      | VMap newMap => VMap (build_map (fun nk : string => nk) (fun nv => nv) newMap existingMap)
      | _ => v
      end
  | _ => v
  end.

(** ** Further accessors and mutators, part_000 *)

(** part_000 599-607: a new map with the bindings of the top level. *)
Definition Data : M smap :=
  m <- get_manager ;;
  ret (build_map (fun k : string => k) (fun v => v) (data m) []).

(** part_000 609-612 *)
Definition WithFilePath (path : string) (m : Manager) : Manager :=
  mkManager (data m) path (fileFormat m) (caseSensitive m).

(** part_000 614-617 *)
Definition WithFormat (format : Format) (m : Manager) : Manager :=
  mkManager (data m) (filePath m) format (caseSensitive m).

Section text_accessors.
(** [fmt.Sprintf("%v", v)] on a stored value. *)
Variable Sprint : value -> string.
Variable rev : revision.

(** part_000 280-294 *)
Definition GetString (key : string) : M (result ConfigError string) :=
  r <- Get rev key ;;
  match r with
  | Error e => ret (Error e)
  | Ok (VString v) => ret (Ok v)
  | Ok (VBytes v) => ret (Ok v)
  | Ok v => ret (Ok (Sprint v))
  end.

(** The switch of part_000 417-424 on one element. *)
Definition element_string (v : value) : string :=
  match v with
  | VString sv => sv
  | VBytes sv => sv
  | _ => Sprint v
  end.

(** part_000 404-438 *)
Definition GetStringSlice (key : string) : M (result ConfigError (list string)) :=
  r <- Get rev key ;;
  match r with
  | Error e => ret (Error e)
  | Ok (VStrings strSlice) => ret (Ok strSlice)
  | Ok (VSlice slice) => ret (Ok (map element_string slice))
  | Ok (VString str) => ret (Ok [str])
  | Ok v => ret (Error (mkConfigError "convert" key (ErrCannotConvert (type_name v) "[]string")))
  end.
End text_accessors.

(** ** File names, utils.go *)

(** Errors that are not built from a key of the tree. *)
Inductive cause : Type :=
| CauseOS (msg : string)
| CauseNoExtension
| CauseEmptyFilePath
| CauseEmptyFilePathProvided
| CauseUnsupportedExtension (extension : string)
| CauseAbsolutePath (msg : string)
| CauseAccessingPath (msg : string)
| CauseNotRegular (filePath : string)
| CauseFilePathNotSet
| CauseUnsupportedFormat (format : Format).

(** [filepath.Ext] with the separator [/]: the loop runs from the last byte
    towards the first, returns the suffix from the first dot it meets and
    stops at a separator. [suffix] is the part of the path behind [rpath]. *)
Fixpoint Ext_scan (rpath : list ascii) (suffix : string) : string :=
  match rpath with
  | [] => ""
  | c :: r =>
      if Ascii.eqb c "/"%char then ""
      else if Ascii.eqb c "."%char then String c suffix
      else Ext_scan r (String c suffix)
  end.

Definition Ext (path : string) : string :=
  Ext_scan (rev (list_ascii_of_string path)) "".

(** [extension[1:]] *)
Definition drop_first (s : string) : string :=
  match s with
  | EmptyString => EmptyString
  | String _ r => r
  end.

(** utils.go 11-27 ([Rev1]) and 159-182 ([Rev2]). *)
Definition detectFileFormat (rev : revision) (filePath : string) : result cause Format :=
  if match rev with Rev1 => false | Rev2 => String.eqb filePath "" end
  then Error CauseEmptyFilePath
  else
    let extension := ToLower (Ext filePath) in
    if String.eqb extension "" then Error CauseNoExtension
    else
      let extension := drop_first extension in
      if String.eqb extension FormatJSON then Ok FormatJSON
      else if String.eqb extension FormatYAML || String.eqb extension FormatYML then Ok FormatYAML
      else Error (CauseUnsupportedExtension extension).

(** [strings.Contains(filePath, "$")] *)
Fixpoint contains_dollar (s : string) : bool :=
  match s with
  | EmptyString => false
  | String c r => Ascii.eqb c "$"%char || contains_dollar r
  end.

(** [strings.SplitN(env, "=", 2)] when it has two parts. *)
Fixpoint SplitN2 (env : string) : option (string * string) :=
  match env with
  | EmptyString => None
  | String c r =>
      if Ascii.eqb c "="%char then Some (EmptyString, r)
      else match SplitN2 r with
           | Some (name, value) => Some (String c name, value)
           | None => None
           end
  end.

(** [strings.ReplaceAll(s, old, new)] for an [old] that is not empty (here
    it begins with [$]): the occurrences are taken from the left and do not
    overlap. [fuel] bounds the bytes still to read. *)
Fixpoint ReplaceAll_fuel (fuel : nat) (s old new : string) : string :=
  match fuel with
  | O => s
  | S fuel =>
      match s with
      | EmptyString => EmptyString
      | String c r =>
          if String.prefix old s
          then new ++ ReplaceAll_fuel fuel
                        (substring (String.length old) (String.length s - String.length old) s)
                        old new
          else String c (ReplaceAll_fuel fuel r old new)
      end
  end.

Definition ReplaceAll (s old new : string) : string :=
  ReplaceAll_fuel (String.length s) s old new.

(** What the operating system answers to [os.Stat]. *)
Inductive stat_result : Type :=
| StatRegular
| StatIrregular
| StatNotExist (msg : string)
| StatError (msg : string).

(** The calls into [os], [path/filepath] and the encoders. The answers are
    those of one state of the file system and the environment. *)
Record OS : Type := mkOS {
  os_Environ : list string;
  os_Expand : string -> string;
  os_Abs : string -> result string string;
  os_Clean : string -> string;
  os_Stat : string -> stat_result;
  os_Open : string -> result string (result string string);
  os_Dir : string -> string;
  os_MkdirAll : string -> option string;
  os_WriteFile : string -> string -> option string;
  json_MarshalIndent : smap -> result string string;
  yaml_Marshal : smap -> result string string
}.

(** [filepath.IsAbs] with the separator [/]. *)
Definition IsAbs (path : string) : bool := String.prefix "/" path.

(** The body of the loop of utils.go 31-38. *)
Definition expand_entry (filePath env : string) : string :=
  match SplitN2 env with
  | Some (name, value) =>
      let filePath := ReplaceAll filePath ("$" ++ name) value in
      ReplaceAll filePath ("${" ++ name ++ "}") value
  | None => filePath
  end.

(** utils.go 29-50 ([Rev1]) and 187-214 ([Rev2]). *)
Definition resolvePath (os : OS) (rev : revision) (filePath : string) : result cause string :=
  match rev with
  | Rev1 =>
      let filePath :=
        if contains_dollar filePath then fold_left expand_entry (os_Environ os) filePath
        else filePath in
      if IsAbs filePath then Ok filePath
      else match os_Abs os filePath with
           | Error msg => Error (CauseOS msg)
           | Ok absPath => Ok absPath
           end
  | Rev2 =>
      if String.eqb filePath "" then Error CauseEmptyFilePathProvided
      else
        let filePath := if contains_dollar filePath then os_Expand os filePath else filePath in
        match (if IsAbs filePath then Ok filePath else os_Abs os filePath) with
        | Error msg => Error (CauseAbsolutePath msg)
        | Ok filePath =>
            let filePath := os_Clean os filePath in
            match os_Stat os filePath with
            | StatError msg => Error (CauseAccessingPath msg)
            | _ => Ok filePath
            end
        end
  end.

(** ** Files, part_000 *)

(** A [ConfigError] whose [Err] does not come from the tree. *)
Record FileError : Type := mkFileError {
  fOperation : string;
  fCause : cause
}.

Inductive load_error : Type :=
| FileErr (e : FileError)
| LoadErr (e : ConfigError).

(** The calls that change the file system, in the order they are made. *)
Inductive fs_event : Type :=
| EvMkdirAll (dir : string)
| EvWriteFile (path content : string).

Section files.
Variable os : OS.
Variable json_decode : string -> result string value.
Variable yaml_decode : string -> result string value.
Variable rev : revision.

(** part_000 154-199 *)
Definition LoadFile (filePath : string) : M (result load_error unit) :=
  match resolvePath os rev filePath with
  | Error c => ret (Error (FileErr (mkFileError "resolve path" c)))
  | Ok resolvedPath =>
      match os_Stat os resolvedPath with
      | StatNotExist msg | StatError msg =>
          ret (Error (FileErr (mkFileError "stat file" (CauseOS msg))))
      | StatIrregular =>
          ret (Error (FileErr (mkFileError "check file" (CauseNotRegular filePath))))
      | StatRegular =>
          match detectFileFormat rev resolvedPath with
          | Error c => ret (Error (FileErr (mkFileError "detect file format" c)))
          | Ok format =>
              match os_Open os resolvedPath with
              | Error msg => ret (Error (FileErr (mkFileError "open file" (CauseOS msg))))
              | Ok file =>
                  r <- Load json_decode yaml_decode rev file format ;;
                  match r with
                  | Error e => ret (Error (LoadErr e))
                  | Ok u => ret (Ok u)
                  end
              end
          end
      end
  end.

(** part_000 552-597: the result, the manager it leaves and the calls made
    that change the file system. *)
Definition SaveToFile (path : string) (format : Format) (m : Manager)
    : result FileError unit * Manager * list fs_event :=
  match resolvePath os rev path with
  | Error c => (Error (mkFileError "resolve path" c), m, [])
  | Ok resolvedPath =>
      let marshalled : result cause string :=
        if String.eqb format FormatJSON then
          match json_MarshalIndent os (data m) with
          | Ok content => Ok content
          | Error msg => Error (CauseOS msg)
          end
        else if String.eqb format FormatYAML || String.eqb format FormatYML then
          match yaml_Marshal os (data m) with
          | Ok content => Ok content
          | Error msg => Error (CauseOS msg)
          end
        else Error (CauseUnsupportedFormat format) in
      match marshalled with
      | Error c => (Error (mkFileError "marshal" c), m, [])
      | Ok content =>
          let dir := os_Dir os resolvedPath in
          match os_MkdirAll os dir with
          | Some msg => (Error (mkFileError "create directory" (CauseOS msg)), m, [EvMkdirAll dir])
          | None =>
              match os_WriteFile os resolvedPath content with
              | Some msg =>
                  (Error (mkFileError "write file" (CauseOS msg)), m,
                   [EvMkdirAll dir; EvWriteFile resolvedPath content])
              | None =>
                  (Ok tt, mkManager (data m) resolvedPath format (caseSensitive m),
                   [EvMkdirAll dir; EvWriteFile resolvedPath content])
              end
          end
      end
  end.

(** part_000 541-550 *)
Definition Save (m : Manager) : result FileError unit * Manager * list fs_event :=
  if String.eqb (filePath m) "" then
    (Error (mkFileError "save" CauseFilePathNotSet), m, [])
  else SaveToFile (filePath m) (fileFormat m) m.
End files.

(** ** Further notions used by the statements *)

Fixpoint distinct (l : list string) : bool :=
  match l with
  | [] => true
  | x :: r => negb (existsb (String.eqb x) r) && distinct r
  end.

(** A value as Go can hold it: in every string-keyed mapping of [v] the
    keys are distinct. *)
Fixpoint distinct_keys (v : value) : bool :=
  match v with
  | VMap m =>
      distinct (map fst m) && forallb (fun kv => let '(_, x) := kv in distinct_keys x) m
  | VIMap m => forallb (fun kv => let '(_, x) := kv in distinct_keys x) m
  | VSlice l => forallb distinct_keys l
  | _ => true
  end.

(** No byte of [s] is a dot or a separator. *)
Fixpoint plain_name (s : string) : bool :=
  match s with
  | EmptyString => true
  | String c r => negb (Ascii.eqb c "."%char) && negb (Ascii.eqb c "/"%char) && plain_name r
  end.

(** No byte of [s] is a separator. *)
Fixpoint no_separator (s : string) : bool :=
  match s with
  | EmptyString => true
  | String c r => negb (Ascii.eqb c "/"%char) && no_separator r
  end.

(** The map in which the loop of [Set] goes on after the segment [k]
    (part_000 461-490): the mapping under [k], the conversion of a
    foreign-keyed mapping under [k], or a new map. *)
Definition next_of (current : smap) (k : string) : smap :=
  match lookup current k with
  | Some (VMap nextMap) => nextMap
  | Some (VIMap iFaceMap) => stringify iFaceMap
  | _ => []
  end.

(** No byte of [s] is a dot. *)
Fixpoint no_dot (s : string) : bool :=
  match s with
  | EmptyString => true
  | String c r => negb (Ascii.eqb c "."%char) && no_dot r
  end.

(** * Properties *)

(** ** The embedding on small inputs *)

Example Split_ab : Split "a.b" = ["a"; "b"].
Proof. reflexivity. Qed.

Example Split_empty : Split "" = [""].
Proof. reflexivity. Qed.

Example Split_dots : Split "a..b." = ["a"; ""; "b"; ""].
Proof. reflexivity. Qed.

Example EqualFold_AB : EqualFold "A.B" "a.b" = true /\ EqualFold "ab" "a.b" = false.
Proof. split; reflexivity. Qed.

Example Sprint_key_int : Sprint_key (KInt 42) = "42" /\ Sprint_key (KInt (-7)) = "-7".
Proof. split; reflexivity. Qed.

Example transformMapKeys_nested :
  transformMapKeys Rev2
    (VIMap [(KInt 1, VIMap [(KBool true, VInt 3)]); (KString "s", VSlice [VIMap []])])
  = VMap [("1", VMap [("true", VInt 3)]); ("s", VSlice [VMap []])].
Proof. reflexivity. Qed.

Example Set_creates_and_overwrites :
  data (exec (Set_ "a.b.c" (VInt 1)) (manager_of [("a", VString "scalar")] true))
  = [("a", VMap [("b", VMap [("c", VInt 1)])])].
Proof. reflexivity. Qed.

Example Load_then_Get :
  let doc := VMap [("app", VMap [("name", VString "TestApp")]);
                   ("server", VMap [("port", VFloat64 8080%float)])] in
  let jd := fun _ : string => Ok doc in
  eval (Load jd jd Rev2 (Ok "...") FormatJSON ;; Get Rev2 "app.name") New
  = Ok (VString "TestApp").
Proof. reflexivity. Qed.

(** ** Strings *)

Lemma EqualFold_refl s : EqualFold s s = true.
Proof. unfold EqualFold. apply String.eqb_refl. Qed.

Lemma EqualFold_trans_l a b x :
  EqualFold a b = true -> EqualFold x a = EqualFold x b.
Proof.
  unfold EqualFold. intros H. apply String.eqb_eq in H. now rewrite H.
Qed.

Lemma Split_nonempty s : Split s <> [].
Proof.
  destruct s as [|c s]; simpl; [discriminate|].
  destruct (Ascii.eqb c "."); [discriminate|].
  destruct (Split s); discriminate.
Qed.

Lemma Split_snoc s : Split s = removelast (Split s) ++ [last (Split s) ""].
Proof. apply app_removelast_last, Split_nonempty. Qed.

(** ** Maps *)

Lemma lookup_insert_eq k v m : lookup (insert k v m) k = Some v.
Proof.
  induction m as [|[k' v'] m IH]; simpl.
  - now rewrite String.eqb_refl.
  - destruct (String.eqb k' k) eqn:E; simpl.
    + now rewrite String.eqb_refl.
    + now rewrite E.
Qed.

Lemma lookup_insert_ne k k' v m : k' <> k -> lookup (insert k v m) k' = lookup m k'.
Proof.
  intros Hne. induction m as [|[k0 v0] m IH]; simpl.
  - destruct (String.eqb k k') eqn:E; [apply String.eqb_eq in E; congruence | reflexivity].
  - destruct (String.eqb k0 k) eqn:E; simpl.
    + apply String.eqb_eq in E. subst k0.
      destruct (String.eqb k k') eqn:E'; [apply String.eqb_eq in E'; congruence | reflexivity].
    + now rewrite IH.
Qed.



Lemma lookup_In m k v : lookup m k = Some v -> In (k, v) m.
Proof.
  induction m as [|[k' v'] m IH]; simpl; [discriminate|].
  destruct (String.eqb k' k) eqn:E.
  - apply String.eqb_eq in E. intros [= ->]. left. now subst.
  - intros H. right. now apply IH.
Qed.

Lemma lookup_None_keys m k : lookup m k = None <-> ~ In k (keys_of m).
Proof.
  induction m as [|[k' v'] m IH]; simpl.
  - tauto.
  - destruct (String.eqb k' k) eqn:E.
    + apply String.eqb_eq in E. split; [discriminate | intros H; exfalso; apply H; now left].
    + apply String.eqb_neq in E. rewrite IH. tauto.
Qed.


Lemma insert_absent k v m : ~ In k (keys_of m) -> insert k v m = m ++ [(k, v)].
Proof.
  induction m as [|[k' v'] m IH]; simpl; [reflexivity|].
  intros H. destruct (String.eqb k' k) eqn:E.
  - apply String.eqb_eq in E. tauto.
  - rewrite IH; tauto.
Qed.



Lemma Forall_values_insert (Q : value -> Prop) k v m :
  Q v -> Forall (fun kv => Q (snd kv)) m -> Forall (fun kv => Q (snd kv)) (insert k v m).
Proof.
  intros Hv. induction 1 as [|[k' v'] m Hx Hm IH]; simpl.
  - now repeat constructor.
  - destruct (String.eqb k' k); constructor; auto.
Qed.

(** ** [find_fold] reads the keys only *)

Lemma find_fold_keys a b seg : keys_of a = keys_of b -> find_fold a seg = find_fold b seg.
Proof.
  revert b. induction a as [|[k v] a IH]; intros [|[k' v'] b]; simpl; try discriminate; auto.
  intros [= -> H]. now rewrite (IH b H).
Qed.

Lemma find_fold_Some m seg k :
  find_fold m seg = Some k -> In k (keys_of m) /\ EqualFold k seg = true.
Proof.
  induction m as [|[k' v'] m IH]; simpl; [discriminate|].
  destruct (EqualFold k' seg) eqn:E.
  - intros [= <-]. auto.
  - intros H. destruct (IH H). auto.
Qed.

Lemma find_fold_None m seg k :
  find_fold m seg = None -> In k (keys_of m) -> EqualFold k seg = false.
Proof.
  induction m as [|[k' v'] m IH]; simpl; [tauto|].
  destruct (EqualFold k' seg) eqn:E; [discriminate|].
  intros H [<-|Hin]; auto.
Qed.

Lemma find_fold_idem m seg k : find_fold m seg = Some k -> find_fold m k = Some k.
Proof.
  intros H. destruct (find_fold_Some _ _ _ H) as [_ Hf].
  revert H. induction m as [|[k' v'] m IH]; simpl; [discriminate|].
  rewrite (EqualFold_trans_l k seg k' Hf).
  destruct (EqualFold k' seg); auto.
Qed.

Lemma fold_unique_spec m seg k k' :
  fold_unique m seg = true -> find_fold m seg = Some k ->
  In k' (keys_of m) -> EqualFold k' seg = true -> k' = k.
Proof.
  unfold fold_unique. intros Hu Hf. rewrite Hf in Hu.
  rewrite forallb_forall in Hu. intros Hin He.
  apply in_map_iff in Hin. destruct Hin as [[k0 v0] [<- Hin]].
  specialize (Hu _ Hin). simpl in *. rewrite He in Hu. simpl in Hu.
  now apply String.eqb_eq.
Qed.

(** When the segment is itself a key and no other key equals it up to
    case, the scan finds the segment. *)
Lemma find_fold_exact m seg :
  fold_unique m seg = true -> In seg (keys_of m) -> find_fold m seg = Some seg.
Proof.
  intros Hu Hin. destruct (find_fold m seg) as [k|] eqn:Hf.
  - f_equal. symmetry. eapply fold_unique_spec; eauto. apply EqualFold_refl.
  - pose proof (find_fold_None _ _ _ Hf Hin) as H. rewrite EqualFold_refl in H. discriminate.
Qed.

Lemma lookup_Some_keys m k v : lookup m k = Some v -> In k (keys_of m).
Proof.
  intros H. apply lookup_In in H. apply in_map_iff. now exists (k, v).
Qed.

Lemma forallb_keys (f : string -> bool) (m : smap) :
  forallb (fun kv => f (fst kv)) m = forallb f (keys_of m).
Proof. induction m as [|[k v] m IH]; simpl; [reflexivity | now rewrite IH]. Qed.

Lemma fold_unique_keys a b seg : keys_of a = keys_of b -> fold_unique a seg = fold_unique b seg.
Proof.
  intros H. unfold fold_unique. rewrite (find_fold_keys a b seg H).
  destruct (find_fold b seg) as [k|]; [|reflexivity].
  rewrite (forallb_keys (fun x => implb (EqualFold x seg) (String.eqb x k)) a).
  rewrite (forallb_keys (fun x => implb (EqualFold x seg) (String.eqb x k)) b).
  now rewrite H.
Qed.

(** ** The accessors read the manager and leave it as it is *)


Lemma Get_exec rev key m : exec (Get rev key) m = m.
Proof.
  unfold exec, Get, bind, get_manager, ret.
  destruct (String.eqb key ""); [reflexivity|].
  destruct (getNestedMap rev (data m) key (caseSensitive m)) as [[loc lastKey]|e]; [|reflexivity].
  destruct (lookup (loc_map loc) (fold_last (caseSensitive m) (loc_map loc) lastKey)); reflexivity.
Qed.

Lemma Get_run rev key m : Get rev key m = (eval (Get rev key) m, m).
Proof.
  rewrite <- (Get_exec rev key m) at 3. unfold eval, exec. now destruct (Get rev key m).
Qed.

(** C10. [Has(key)] is true exactly when [Get(key)] returns without an
    error, in both revisions of the resolver, and [Has] leaves the manager
    (its tree and its other fields) as it found it. *)
Theorem Has_iff_Get : forall rev key m,
  (eval (Has rev key) m = true <-> exists v, eval (Get rev key) m = Ok v)
  /\ exec (Has rev key) m = m.
Proof.
  intros rev key m. unfold Has, bind, eval, exec.
  rewrite (Get_run rev key m).
  destruct (eval (Get rev key) m) as [v|e]; simpl; split; try reflexivity.
  - split; [intros _; now exists v | reflexivity].
  - split; [discriminate | intros [v [=]]].
Qed.

(** ** Loading *)

(** C8. A load with a format tag other than json, yaml and yml fails and
    leaves the manager as it was, the tree and the stored format tag
    included; whenever the bytes could be read, the failure is the error
    "unsupported file format" under the operation "parse". *)
Theorem Load_unsupported_format :
  forall json_decode yaml_decode rev (r : result string string) (format : Format) m,
    format <> FormatJSON -> format <> FormatYAML -> format <> FormatYML ->
    (exists e, eval (Load json_decode yaml_decode rev r format) m = Error e
               /\ (forall content, r = Ok content ->
                     e = mkConfigError "parse" "" (ErrUnsupportedFormat format)
                     /\ format_error e = true))
    /\ exec (Load json_decode yaml_decode rev r format) m = m.
Proof.
  intros jd yd rev r format m Hj Hy Hm.
  apply String.eqb_neq in Hj, Hy, Hm.
  unfold Load, eval, exec. destruct r as [content|msg]; simpl.
  - unfold bind, get_manager, ret. rewrite Hj, Hy, Hm. simpl. split; [|reflexivity].
    eexists. split; [reflexivity|]. intros c _. split; reflexivity.
  - split; [|reflexivity]. eexists. split; [reflexivity|]. intros c [=].
Qed.

Lemma Load_unsupported_format_witness :
  let jd := fun _ : string => Ok (VMap []) in
  let m := mkManager tree_ab "cfg.json" FormatJSON true in
  eval (Load jd jd Rev2 (Ok "invalid content") "invalid") m
    = Error (mkConfigError "parse" "" (ErrUnsupportedFormat "invalid"))
  /\ exec (Load jd jd Rev2 (Ok "invalid content") "invalid") m = m.
Proof.
  intros jd m.
  destruct (Load_unsupported_format jd jd Rev2 (Ok "invalid content") "invalid" m)
    as [[e [He Hk]] Hm]; try (unfold FormatJSON, FormatYAML, FormatYML; discriminate).
  split; [|exact Hm].
  rewrite He. f_equal. exact (proj1 (Hk _ eq_refl)).
Defined.

(** ** [GetBool] *)


Lemma one_of_In s l : one_of s l = true <-> In s l.
Proof.
  unfold one_of. rewrite existsb_exists. split.
  - intros [x [Hin He]]. apply String.eqb_eq in He. now subst.
  - intros H. exists s. split; [assumption | apply String.eqb_refl].
Qed.

Lemma GetBool_run rev key m :
  eval (GetBool rev key) m =
  match eval (Get rev key) m with
  | Ok v => to_bool key v
  | Error e => Error e
  end.
Proof.
  unfold GetBool, bind, eval. rewrite (Get_run rev key m).
  now destruct (eval (Get rev key) m).
Qed.

(** C4, as the code has it. [GetBool] on a resolved value: a string is
    compared in lower case with the two word lists and any other string is
    a conversion error; a bool is returned as it is; an [int] and a
    [float64] give [value != 0]; every other dynamic type, the numeric types
    [int64], [int32] and [float32] among them, is a conversion error. A
    failure of [Get] is passed on. *)
Theorem GetBool_table : forall rev key m,
  (forall e, eval (Get rev key) m = Error e -> eval (GetBool rev key) m = Error e)
  /\ (forall v, eval (Get rev key) m = Ok v ->
      match v with
      | VString s =>
          (In (ToLower s) true_words -> eval (GetBool rev key) m = Ok true)
          /\ (In (ToLower s) false_words -> eval (GetBool rev key) m = Ok false)
          /\ (~ In (ToLower s) true_words -> ~ In (ToLower s) false_words ->
              exists e, eval (GetBool rev key) m = Error e /\ conversion_error e = true)
      | VBool b => eval (GetBool rev key) m = Ok b
      | VInt n => eval (GetBool rev key) m = Ok (negb (Z.eqb n 0))
      | VFloat64 f => eval (GetBool rev key) m = Ok (negb (PrimFloat.eqb f 0%float))
      | _ => exists e, eval (GetBool rev key) m = Error e /\ conversion_error e = true
      end)
  /\ to_bool key (VString "YES") = Ok true
  /\ (exists e, to_bool key (VString "maybe") = Error e /\ conversion_error e = true).
Proof.
  intros rev key m. rewrite GetBool_run. split; [|split; [|split]].
  - intros e ->. reflexivity.
  - intros v ->. destruct v; try (simpl; eexists; split; reflexivity); try reflexivity.
    unfold to_bool. fold true_words false_words. split; [|split].
    + intros H. apply one_of_In in H. now rewrite H.
    + intros H. destruct (one_of (ToLower s) true_words) eqn:E.
      * apply one_of_In in E. exfalso. unfold true_words, false_words in *. simpl in *.
        repeat (destruct H as [H|H]; [rewrite <- H in E; intuition discriminate|]).
        exact H.
      * apply one_of_In in H. now rewrite H.
    + intros Ht Hf.
      destruct (one_of (ToLower s) true_words) eqn:E1; [apply one_of_In in E1; tauto|].
      destruct (one_of (ToLower s) false_words) eqn:E2; [apply one_of_In in E2; tauto|].
      eexists. split; reflexivity.
  - reflexivity.
  - eexists. split; reflexivity.
Qed.

Lemma GetBool_table_witness :
  let m := manager_of [("debug", VString "On"); ("n", VInt 0)] true in
  eval (GetBool Rev2 "debug") m = Ok true
  /\ eval (GetBool Rev2 "n") m = Ok false
  /\ eval (GetBool Rev2 "missing") m
     = Error (mkConfigError "get value" "missing" (ErrKeyNotFound "missing")).
Proof.
  intros m.
  destruct (GetBool_table Rev2 "debug" m) as [_ [H _]].
  destruct (H (VString "On") eq_refl) as [Ht _].
  destruct (GetBool_table Rev2 "n" m) as [_ [Hn _]].
  destruct (GetBool_table Rev2 "missing" m) as [He _].
  split; [apply Ht; simpl; tauto|].
  split; [exact (Hn (VInt 0) eq_refl) | exact (He _ eq_refl)].
Defined.

(** C4 as stated fails on the numeric types that the switch of [GetBool]
    does not list: a stored [int64], [int32] or [float32] is not zero-tested
    but refused. *)
Lemma GetBool_int64_counterexample :
  let m := manager_of [("k", VInt64 1); ("j", VInt32 0); ("f", VFloat32 1%float)] true in
  eval (Get Rev2 "k") m = Ok (VInt64 1)
  /\ eval (GetBool Rev2 "k") m
     = Error (mkConfigError "convert" "k" (ErrCannotConvert "int64" "bool"))
  /\ eval (GetBool Rev2 "k") m <> Ok (negb (Z.eqb 1 0))
  /\ eval (GetBool Rev2 "j") m
     = Error (mkConfigError "convert" "j" (ErrCannotConvert "int32" "bool"))
  /\ eval (GetBool Rev2 "f") m
     = Error (mkConfigError "convert" "f" (ErrCannotConvert "float32" "bool")).
Proof. repeat split. discriminate. Qed.

(** ** Case folding in [Get] *)


Lemma fold_last_nil cs k : fold_last cs [] k = k.
Proof. now destruct cs. Qed.

(** With the resolver of utils.go 52-118, which ends in
    [return nil, "", nil], [Get] finds nothing below the root. *)
Lemma Get_rev1_nested_fails : forall m key,
  removelast (Split key) <> [] ->
  exists e, eval (Get Rev1 key) m = Error e.
Proof.
  intros m key Hn. unfold eval, Get, bind, get_manager, ret.
  destruct (String.eqb key "") eqn:E.
  { apply String.eqb_eq in E. subst. now elim Hn. }
  unfold getNestedMap, getNestedMap_keys.
  destruct (Split key) as [|s l] eqn:Es; [now elim (Split_nonempty key)|].
  destruct (removelast (s :: l)) as [|i inner]; [now elim Hn|].
  destruct (walk (caseSensitive m) key (data m) false (i :: inner)) as [loc|e];
    unfold bind_result, nil_location; cbn [loc_map].
  - rewrite fold_last_nil. simpl. eexists. reflexivity.
  - eexists. reflexivity.
Qed.

(** C3 on the resolver of utils.go 52-118. On the tree
    [{"a": {"b": 1}}] the lookups "a.b" and "A.B" both end in "key not
    found", with case sensitivity disabled and enabled alike: the resolver
    walks to the mapping that holds "b" and then returns the nil map and the
    empty key. *)
Theorem Get_case_folding_rev1 :
  eval (Get Rev1 "a.b") (manager_of tree_ab false)
    = Error (mkConfigError "get value" "a.b" (ErrKeyNotFound "a.b"))
  /\ eval (Get Rev1 "A.B") (manager_of tree_ab false)
    = Error (mkConfigError "get value" "A.B" (ErrKeyNotFound "A.B"))
  /\ eval (Get Rev1 "a.b") (manager_of tree_ab true)
    = Error (mkConfigError "get value" "a.b" (ErrKeyNotFound "a.b"))
  /\ getNestedMap Rev1 tree_ab "a.b" true = Ok (nil_location, "").
Proof. repeat split. Qed.

(** The same lookups on the resolver of utils.go 216-283, which returns
    [current, lastKey, nil]: without case sensitivity "A.B" and "a.b" both
    give 1; with it "a.b" gives 1 and "A.B" is not found. *)
Lemma Get_case_folding_rev2 :
  eval (Get Rev2 "A.B") (manager_of tree_ab false) = Ok (VInt 1)
  /\ eval (Get Rev2 "a.b") (manager_of tree_ab false) = Ok (VInt 1)
  /\ eval (Get Rev2 "a.b") (manager_of tree_ab true) = Ok (VInt 1)
  /\ eval (Get Rev2 "A.B") (manager_of tree_ab true)
     = Error (mkConfigError "get nested map" "A.B" (ErrKeyNotFoundInPath "A" "A.B"))
  /\ not_found (mkConfigError "get nested map" "A.B" (ErrKeyNotFoundInPath "A" "A.B")) = true.
Proof. repeat split. Qed.

(** ** Foreign-keyed mappings on the path *)




Lemma strict_copy_spec iFaceMap : forall acc,
  strict_copy iFaceMap acc =
  if all_string_keys iFaceMap
  then Some (build_map (key_string Rev1) (fun iv => iv) iFaceMap acc)
  else None.
Proof.
  induction iFaceMap as [|[k v] r IH]; intros acc; simpl; [reflexivity|].
  destruct k; simpl; try reflexivity. apply IH.
Qed.

(** C2 as stated fails on the resolver: the foreign-keyed mapping under
    "a" has the key 1, and "a.b" does not resolve, in either revision,
    although the mapping with its keys rendered by [%v] holds "b". *)
Lemma getNestedMap_rejects_foreign_keys :
  getNestedMap Rev2 tree_foreign "a.b" true = Error (ErrKeyNotString "a" "a.b")
  /\ getNestedMap Rev1 tree_foreign "a.b" true = Error (ErrKeyNotString "a" "a.b")
  /\ getNestedMap Rev2 tree_foreign "a.b" false = Error (ErrKeyNotString "a" "a.b")
  /\ lookup (stringify [(KInt 1, VString "x"); (KString "b", VInt 2)]) "b" = Some (VInt 2)
  /\ ~ (forall path key iFaceMap,
          nested path key (VIMap iFaceMap) = Ok (stringify iFaceMap, true)).
Proof.
  repeat split.
  intros H. specialize (H "a.b" "a" [(KInt 1, VString "x")]). discriminate.
Qed.

(** C2, as the code has it. Where the walk of [getNestedMap] meets a
    foreign-keyed mapping under a segment, it goes on in a fresh string-keyed
    copy of it when every top-level key is a string (the keys are taken as
    they are, which is also what [%v] prints for them), and fails with
    "is not a string" when some key is not. The walk of [Set] converts every
    key with [%v], stores the converted mapping under the segment, and goes
    on in it. *)
Theorem foreign_keyed_step :
  forall cs path current detached key k rest iFaceMap,
    fold_segment cs path current key = Ok k ->
    lookup current k = Some (VIMap iFaceMap) ->
    (all_string_keys iFaceMap = true ->
       walk cs path current detached (key :: rest) =
       (loc <-- walk cs path (stringify iFaceMap) true rest ;;
        Ok (mkLocation (k :: loc_keys loc) (loc_map loc) (loc_detached loc))))
    /\ (all_string_keys iFaceMap = false ->
       walk cs path current detached (key :: rest) = Error (ErrKeyNotString k path))
    /\ (forall lastKey v,
       set_walk current (k :: rest) lastKey v =
       insert k (VMap (set_walk (stringify iFaceMap) rest lastKey v)) current).
Proof.
  intros cs path current detached key k rest iFaceMap Hk Hl.
  split; [|split].
  - intros Ha. simpl. rewrite Hk. simpl. rewrite Hl. simpl.
    rewrite strict_copy_spec, Ha. reflexivity.
  - intros Ha. simpl. rewrite Hk. simpl. rewrite Hl. simpl.
    rewrite strict_copy_spec, Ha. reflexivity.
  - intros lastKey v. simpl. rewrite Hl. reflexivity.
Qed.

Lemma foreign_keyed_step_witness :
  let im := [(KString "b", VInt 2); (KString "c", VInt 3)] in
  walk false "A.b" [("a", VIMap im)] false ["A"]
    = Ok (mkLocation ["a"] [("b", VInt 2); ("c", VInt 3)] true)
  /\ set_walk tree_foreign ["a"] "b" (VInt 7)
    = [("a", VMap [("1", VString "x"); ("b", VInt 7)])].
Proof.
  intros im.
  destruct (foreign_keyed_step false "A.b" [("a", VIMap im)] false "A" "a" [] im
              eq_refl eq_refl) as [H1 _].
  split; [rewrite (H1 eq_refl); reflexivity|].
  destruct (foreign_keyed_step true "a.b" tree_foreign false "a" "a" []
              [(KInt 1, VString "x"); (KString "b", VInt 2)] eq_refl eq_refl) as [_ [_ H3]].
  rewrite H3. reflexivity.
Defined.

(** ** [build_map]: the assignments of a [range] loop *)

Lemma lookup_build_map_other {K} (strKey : K -> string) g (x : list (K * value)) k :
  ~ In k (map (fun kv => strKey (fst kv)) x) ->
  forall acc, lookup (build_map strKey g x acc) k = lookup acc k.
Proof.
  induction x as [|[k0 v0] x IH]; simpl; intros Hn acc; [reflexivity|].
  rewrite IH by tauto. apply lookup_insert_ne. intros ->. tauto.
Qed.

Lemma lookup_build_map_id g (x : smap) : NoDup (keys_of x) ->
  forall acc k,
  lookup (build_map (fun k : string => k) g x acc) k =
  match lookup x k with
  | Some v => Some (g v)
  | None => lookup acc k
  end.
Proof.
  induction x as [|[k0 v0] x IH]; simpl; intros Hd acc k; [reflexivity|].
  inversion Hd as [|? ? Hn Hd']; subst.
  destruct (String.eqb k0 k) eqn:E.
  - apply String.eqb_eq in E. subst k0.
    rewrite lookup_build_map_other.
    + apply lookup_insert_eq.
    + intros Hin. apply Hn. unfold keys_of.
      rewrite in_map_iff in *. destruct Hin as [kv [H1 H2]]. now exists kv.
  - apply String.eqb_neq in E. rewrite IH by assumption.
    destruct (lookup x k); [reflexivity|]. apply lookup_insert_ne. congruence.
Qed.

(** ** Loading a document into a tree that holds entries *)

Lemma Load_json_run json_decode yaml_decode rev content object m :
  json_decode content = Ok (VMap object) ->
  Load json_decode yaml_decode rev (Ok content) FormatJSON m
  = (Ok tt, mkManager (build_map (fun k : string => k) (fun v => v) object (data m))
                      (filePath m) FormatJSON (caseSensitive m)).
Proof.
  intros Hd. unfold Load, bind, get_manager, json_Unmarshal_into. simpl. now rewrite Hd.
Qed.

(** C5 on the code. A JSON load into a manager whose tree holds entries
    succeeds and keeps every entry whose key the document does not have:
    [json.Unmarshal(content, &m.data)] fills the map that is there. The tree
    [{"old": 1}] loaded with the document [{"new": 2}] is
    [{"old": 1, "new": 2}]. The YAML branch assigns the decoded map. *)
Theorem Load_json_keeps_entries :
  forall json_decode yaml_decode rev content object m,
    json_decode content = Ok (VMap object) ->
    eval (Load json_decode yaml_decode rev (Ok content) FormatJSON) m = Ok tt
    /\ (forall k v, lookup (data m) k = Some v -> ~ In k (keys_of object) ->
          lookup (data (exec (Load json_decode yaml_decode rev (Ok content) FormatJSON) m)) k
          = Some v)
    /\ (data m = [("old", VInt 1)] -> object = [("new", VInt 2)] ->
          data (exec (Load json_decode yaml_decode rev (Ok content) FormatJSON) m)
          = [("old", VInt 1); ("new", VInt 2)]).
Proof.
  intros jd yd rev content object m Hd. unfold eval, exec.
  rewrite (Load_json_run jd yd rev content object m Hd). simpl.
  split; [reflexivity|]. split.
  - intros k v Hl Hn. rewrite lookup_build_map_other; [assumption|].
    unfold keys_of in Hn. exact Hn.
  - intros -> ->. reflexivity.
Qed.

Lemma Load_json_keeps_entries_witness :
  let jd := fun _ : string => Ok (VMap [("new", VInt 2)]) in
  let m := manager_of [("old", VInt 1)] true in
  data (exec (Load jd jd Rev2 (Ok "{new: 2}") FormatJSON) m)
  = [("old", VInt 1); ("new", VInt 2)]
  /\ eval (Get Rev2 "old") (exec (Load jd jd Rev2 (Ok "{new: 2}") FormatJSON) m) = Ok (VInt 1).
Proof.
  intros jd m.
  destruct (Load_json_keeps_entries jd jd Rev2 "{new: 2}" [("new", VInt 2)] m eq_refl)
    as [_ [_ H]].
  split; [exact (H eq_refl eq_refl)|]. reflexivity.
Defined.

(** The YAML branch replaces the tree; a decoded document whose top level
    is keyed by strings is adopted as it is, foreign-keyed mappings below
    the top level included. *)
Lemma Load_yaml_replaces json_decode yaml_decode rev content mapData m :
  yaml_decode content = Ok (VMap mapData) ->
  Load json_decode yaml_decode rev (Ok content) FormatYAML m
  = (Ok tt, mkManager mapData (filePath m) FormatYAML (caseSensitive m)).
Proof.
  intros Hd. unfold Load, bind, get_manager. simpl. now rewrite Hd.
Qed.

Lemma Load_yaml_nested_foreign :
  let doc := [("a", VIMap [(KInt 1, VString "x")])] in
  let yd := fun _ : string => Ok (VMap doc) in
  let m := exec (Load yd yd Rev2 (Ok "a: {1: x}") FormatYAML) New in
  data m = doc
  /\ string_keyed (VMap (data m)) = false
  /\ transformMapKeys Rev2 (VMap doc) = VMap [("a", VMap [("1", VString "x")])].
Proof. repeat split. Qed.

(** ** [MergeMap] *)


Lemma lookup_merge_entry_same d k v :
  lookup (merge_entry d (k, v)) k = Some (merged_value d k v).
Proof.
  unfold merge_entry, merged_value.
  destruct (lookup d k) as [[]|]; try apply lookup_insert_eq.
  destruct v; apply lookup_insert_eq.
Qed.

Lemma lookup_merge_entry_other d k0 v k :
  k <> k0 -> lookup (merge_entry d (k0, v)) k = lookup d k.
Proof.
  intros Hne. unfold merge_entry.
  destruct (lookup d k0) as [[]|]; try (now apply lookup_insert_ne).
  destruct v; now apply lookup_insert_ne.
Qed.

Lemma lookup_fold_merge treeB : NoDup (keys_of treeB) ->
  forall treeA k,
  lookup (fold_left merge_entry treeB treeA) k =
  match lookup treeB k with
  | Some v => Some (merged_value treeA k v)
  | None => lookup treeA k
  end.
Proof.
  induction treeB as [|[k0 v0] treeB IH]; intros Hd treeA k; [reflexivity|].
  simpl in Hd. inversion Hd as [|? ? Hn Hd']; subst.
  cbn [fold_left lookup]. rewrite IH by assumption.
  destruct (String.eqb k0 k) eqn:E.
  - apply String.eqb_eq in E. subst k0.
    apply lookup_None_keys in Hn. rewrite Hn. apply lookup_merge_entry_same.
  - apply String.eqb_neq in E.
    assert (Hk : lookup (merge_entry treeA (k0, v0)) k = lookup treeA k)
      by (apply lookup_merge_entry_other; congruence).
    destruct (lookup treeB k) as [v|]; [|exact Hk].
    unfold merged_value. now rewrite Hk.
Qed.

(** C6, as the code has it. [MergeMap(treeB)] on a manager with tree
    [treeA], key by key of [treeB]: a key that [treeB] does not have keeps
    its binding; where [treeA] holds a string-keyed mapping and [treeB] a
    string-keyed mapping too, the result holds one mapping in which every
    entry of [treeB]'s submap is written over [treeA]'s submap, values
    replaced as wholes; in every other case, the one where [treeB]'s value
    is a foreign-keyed mapping included, [treeB]'s value is the binding.
    The two examples of the spec are computed. *)
Theorem MergeMap_one_level : forall m treeB,
  NoDup (keys_of treeB) ->
  let m' := exec (MergeMap treeB) m in
  (forall k, lookup treeB k = None -> lookup (data m') k = lookup (data m) k)
  /\ (forall k existingMap newMap,
        lookup (data m) k = Some (VMap existingMap) ->
        lookup treeB k = Some (VMap newMap) ->
        NoDup (keys_of newMap) ->
        exists merged,
          lookup (data m') k = Some (VMap merged)
          /\ forall nk, lookup merged nk =
                        match lookup newMap nk with
                        | Some nv => Some nv
                        | None => lookup existingMap nk
                        end)
  /\ (forall k v,
        lookup treeB k = Some v ->
        (forall existingMap, lookup (data m) k <> Some (VMap existingMap))
        \/ (forall newMap, v <> VMap newMap) ->
        lookup (data m') k = Some v)
  /\ data (exec (MergeMap [("a", VMap [("y", VInt 2)])])
                (manager_of [("a", VMap [("x", VInt 1)])] true))
     = [("a", VMap [("x", VInt 1); ("y", VInt 2)])]
  /\ data (exec (MergeMap [("a", VMap [("y", VInt 2)])])
                (manager_of [("a", VInt 1)] true))
     = [("a", VMap [("y", VInt 2)])].
Proof.
  intros m treeB Hd m'.
  assert (Hm : data m' = fold_left merge_entry treeB (data m)) by reflexivity.
  repeat split.
  - intros k Hk. rewrite Hm, lookup_fold_merge by assumption. now rewrite Hk.
  - intros k existingMap newMap Ha Hb Hn.
    exists (build_map (fun nk : string => nk) (fun nv => nv) newMap existingMap).
    split.
    + rewrite Hm, lookup_fold_merge by assumption. rewrite Hb.
      unfold merged_value. now rewrite Ha.
    + intros nk. now rewrite lookup_build_map_id.
  - intros k v Hb Hc. rewrite Hm, lookup_fold_merge by assumption. rewrite Hb.
    unfold merged_value. destruct Hc as [Hc|Hc].
    + destruct (lookup (data m) k) as [[]|]; try reflexivity. now elim (Hc m0).
    + destruct (lookup (data m) k) as [[]|]; try reflexivity.
      destruct v; try reflexivity. now elim (Hc m1).
Qed.

Lemma MergeMap_one_level_witness :
  let treeA := [("a", VMap [("x", VInt 1); ("z", VInt 0)]); ("b", VInt 5)] in
  let treeB := [("a", VMap [("y", VInt 2); ("z", VInt 9)]); ("b", VMap []); ("c", VNil)] in
  let m' := exec (MergeMap treeB) (manager_of treeA false) in
  lookup (data m') "b" = Some (VMap [])
  /\ exists merged, lookup (data m') "a" = Some (VMap merged)
                    /\ lookup merged "z" = Some (VInt 9)
                    /\ lookup merged "x" = Some (VInt 1).
Proof.
  intros treeA treeB m'.
  assert (Hd : NoDup (keys_of treeB)).
  { repeat constructor; simpl; intuition discriminate. }
  destruct (MergeMap_one_level (manager_of treeA false) treeB Hd) as [_ [H2 [H3 _]]].
  split.
  - apply H3; [reflexivity|]. left. intros e. discriminate.
  - destruct (H2 "a" [("x", VInt 1); ("z", VInt 0)] [("y", VInt 2); ("z", VInt 9)]
                eq_refl eq_refl) as [merged [Hl Hm]].
    { repeat constructor; simpl; intuition discriminate. }
    exists merged. split; [exact Hl|]. split; rewrite Hm; reflexivity.
Defined.

(** C6 as stated fails when [treeB]'s value is a mapping that is not
    string-keyed: the type assertion of part_000 631 refuses it, so it
    replaces [treeA]'s submap as a whole and the entry "x" is lost. Such a
    [treeB] is the tree of a manager that loaded a YAML document whose top
    level is string-keyed. *)
Lemma MergeMap_foreign_keyed_counterexample :
  let treeA := [("a", VMap [("x", VInt 1)])] in
  let treeB := [("a", VIMap [(KString "y", VInt 2)])] in
  let yd := fun _ : string => Ok (VMap treeB) in
  let other := exec (Load yd yd Rev2 (Ok "a: {y: 2}") FormatYAML) New in
  let m' := exec (MergeMap treeB) (manager_of treeA true) in
  data other = treeB
  /\ exec (Merge other) (manager_of treeA true) = m'
  /\ data m' = [("a", VIMap [(KString "y", VInt 2)])]
  /\ data m' <> [("a", VMap [("x", VInt 1); ("y", VInt 2)])]
  /\ eval (Get Rev2 "a.x") (manager_of treeA true) = Ok (VInt 1)
  /\ eval (Get Rev2 "a.x") m'
     = Error (mkConfigError "get value" "a.x" (ErrKeyNotFound "a.x"))
  /\ eval (Get Rev2 "a.y") m' = Ok (VInt 2).
Proof. repeat split. discriminate. Qed.

(** ** The key normalizer *)

Lemma build_map_Forall {K} (strKey : K -> string) g (Q : value -> Prop) (x : list (K * value)) :
  Forall (fun kv => Q (g (snd kv))) x ->
  forall acc, Forall (fun kv => Q (snd kv)) acc ->
  Forall (fun kv => Q (snd kv)) (build_map strKey g x acc).
Proof.
  induction 1 as [|[k v] x Hx _ IH]; simpl; intros acc Ha; [assumption|].
  apply IH. now apply Forall_values_insert.
Qed.


Lemma build_map_fixed g (s : smap) :
  NoDup (keys_of s) ->
  Forall (fun kv => g (snd kv) = snd kv) s ->
  forall acc, (forall k, In k (keys_of s) -> ~ In k (keys_of acc)) ->
  build_map (fun k : string => k) g s acc = acc ++ s.
Proof.
  induction s as [|[k v] s IH]; simpl; intros Hd Hg acc Hdisj.
  - now rewrite app_nil_r.
  - inversion Hd as [|? ? Hn Hd']; subst. inversion Hg as [|? ? Hv Hg']; subst.
    simpl in Hv. rewrite Hv. rewrite insert_absent by (apply Hdisj; now left).
    rewrite IH; try assumption.
    + now rewrite <- app_assoc.
    + intros k' Hin. unfold keys_of. rewrite map_app, in_app_iff. simpl.
      intros [H|[H|[]]]; [apply (Hdisj k'); auto | subst; auto].
Qed.

Lemma string_keyed_VMap (s : smap) :
  Forall (fun kv => string_keyed (snd kv) = true) s -> string_keyed (VMap s) = true.
Proof.
  intros H. simpl. apply forallb_forall. rewrite Forall_forall in H.
  intros [k v] Hin. exact (H _ Hin).
Qed.

Lemma key_string_revisions k : key_string Rev1 k = key_string Rev2 k.
Proof. destruct k as [| | [] | |]; reflexivity. Qed.



Lemma transformMapKeys_string_keyed rev v : string_keyed (transformMapKeys rev v) = true.
Proof.
  induction v as [| | | | | | | | | | l IH | m IH | m IH |] using value_nested_ind;
    try reflexivity.
  - cbn [transformMapKeys string_keyed]. apply forallb_forall. rewrite Forall_forall in IH.
    intros y Hy. apply in_map_iff in Hy. destruct Hy as [x [<- Hx]]. now apply IH.
  - cbn [transformMapKeys]. apply string_keyed_VMap.
    apply (build_map_Forall _ _ (fun v => string_keyed v = true)); [assumption | constructor].
  - cbn [transformMapKeys]. apply string_keyed_VMap.
    apply (build_map_Forall _ _ (fun v => string_keyed v = true)); [assumption | constructor].
Qed.


Lemma build_map_ext {K} (f f' : K -> string) (g g' : value -> value) (x : list (K * value)) :
  (forall k, f k = f' k) ->
  Forall (fun kv => g (snd kv) = g' (snd kv)) x ->
  forall acc, build_map f g x acc = build_map f' g' x acc.
Proof.
  intros Hf. induction 1 as [|[k v] x Hv _ IH]; intros acc; cbn [build_map]; [reflexivity|].
  simpl in Hv. now rewrite Hv, Hf, IH.
Qed.

(** The two revisions of the normalizer compute the same function. *)
Lemma transformMapKeys_revisions v : transformMapKeys Rev1 v = transformMapKeys Rev2 v.
Proof.
  induction v as [| | | | | | | | | | l IH | m IH | m IH |] using value_nested_ind;
    try reflexivity; cbn [transformMapKeys]; f_equal.
  - apply map_ext_Forall. exact IH.
  - now apply build_map_ext.
  - apply build_map_ext; [apply key_string_revisions | assumption].
Qed.

(** ** The resolver on a list of segments *)

Lemma getNestedMap_keys_snoc rev d path inner lastKey cs :
  getNestedMap_keys rev d path (inner ++ [lastKey]) cs =
  (loc <-- walk cs path d false inner ;;
   match inner with
   | [] => Ok (loc, lastKey)
   | _ :: _ =>
       match rev with
       | Rev1 => Ok (nil_location, "")
       | Rev2 => Ok (loc, fold_last cs (loc_map loc) lastKey)
       end
   end).
Proof.
  unfold getNestedMap_keys.
  rewrite removelast_last, last_last.
  destruct inner as [|i inner]; [reflexivity|].
  destruct (i :: inner) eqn:E; [discriminate|]. rewrite <- E. clear E.
  cbn [app]. reflexivity.
Qed.

Lemma getNestedMap_root rev d key cs :
  removelast (Split key) = [] ->
  getNestedMap rev d key cs = Ok (mkLocation [] d false, last (Split key) "").
Proof.
  intros H. unfold getNestedMap. rewrite (Split_snoc key), H at 1.
  rewrite getNestedMap_keys_snoc. reflexivity.
Qed.

(** ** [Set] followed by [Get] *)

Lemma set_walk_cons current k rest lastKey v :
  exists nextMap,
    set_walk current (k :: rest) lastKey v
    = insert k (VMap (set_walk nextMap rest lastKey v)) current.
Proof.
  simpl. destruct (lookup current k) as [[]|]; eexists; reflexivity.
Qed.

Lemma path_unique_cons current seg rest :
  path_unique current (seg :: rest) = true ->
  fold_unique current seg = true
  /\ forall k nestedMap, find_fold current seg = Some k ->
       lookup current k = Some (VMap nestedMap) -> path_unique nestedMap rest = true.
Proof.
  simpl. intros H. apply andb_true_iff in H. destruct H as [H1 H2]. split; [assumption|].
  intros k nm Hf Hl. now rewrite Hf, Hl in H2.
Qed.

Lemma fold_last_exact cs current lastKey v :
  cs = true \/ fold_unique current lastKey = true ->
  lookup current lastKey = Some v ->
  fold_last cs current lastKey = lastKey.
Proof.
  intros H Hl. unfold fold_last. destruct cs; [reflexivity|].
  destruct H as [H|H]; [discriminate|].
  rewrite find_fold_exact; [reflexivity | assumption | eapply lookup_Some_keys; eauto].
Qed.

Lemma fold_segment_exact cs path current key v :
  cs = true \/ fold_unique current key = true ->
  lookup current key = Some v ->
  fold_segment cs path current key = Ok key.
Proof.
  intros H Hl. unfold fold_segment. destruct cs; [reflexivity|].
  destruct H as [H|H]; [discriminate|].
  rewrite find_fold_exact; [reflexivity | assumption | eapply lookup_Some_keys; eauto].
Qed.

Lemma walk_set_walk cs path lastKey v : forall keys current detached,
  cs = true \/ path_unique (set_walk current keys lastKey v) (keys ++ [lastKey]) = true ->
  exists loc,
    walk cs path (set_walk current keys lastKey v) detached keys = Ok loc
    /\ fold_last cs (loc_map loc) lastKey = lastKey
    /\ lookup (loc_map loc) lastKey = Some v.
Proof.
  induction keys as [|k rest IH]; intros current detached Hu.
  - eexists. split; [reflexivity|]. cbn [loc_map set_walk].
    split; [|apply lookup_insert_eq].
    apply (fold_last_exact _ _ _ v); [|apply lookup_insert_eq].
    destruct Hu as [Hu|Hu]; [now left | right].
    now apply path_unique_cons in Hu.
  - destruct (set_walk_cons current k rest lastKey v) as [nextMap E].
    rewrite E in *. set (next := set_walk nextMap rest lastKey v) in *.
    assert (Hl : lookup (insert k (VMap next) current) k = Some (VMap next))
      by apply lookup_insert_eq.
    assert (Hs : fold_segment cs path (insert k (VMap next) current) k = Ok k).
    { apply (fold_segment_exact _ _ _ _ (VMap next)); [|exact Hl].
      destruct Hu as [Hu|Hu]; [now left | right].
      now apply path_unique_cons in Hu. }
    destruct (IH nextMap false) as [loc [Hw [Hf Hv]]].
    { destruct Hu as [Hu|Hu]; [now left | right].
      cbn [app] in Hu. apply path_unique_cons in Hu. destruct Hu as [Hu1 Hu2].
      apply (Hu2 k); [|exact Hl].
      destruct cs; [|unfold fold_segment in Hs;
                     destruct (find_fold (insert k (VMap next) current) k); congruence].
      apply find_fold_exact; [assumption | eapply lookup_Some_keys; eauto]. }
    exists (mkLocation (k :: loc_keys loc) (loc_map loc) (loc_detached loc)).
    split; [|split; assumption].
    cbn [walk]. rewrite Hs. cbn [bind_result]. rewrite Hl. cbn [nested bind_result fst snd].
    unfold next. rewrite Hw. reflexivity.
Qed.

Lemma Set_run key v m :
  key <> "" ->
  Set_ key v m
  = (Ok tt, with_data m (set_walk (data m) (removelast (Split key)) (last (Split key) "") v)).
Proof.
  intros Hk. apply String.eqb_neq in Hk. unfold Set_. rewrite Hk. reflexivity.
Qed.

Lemma path_clear_cons current seg rest :
  path_clear current (seg :: rest) = true ->
  ascii_string seg = true
  /\ forallb ascii_string (keys_of current) = true
  /\ fold_unique current seg = true
  /\ forall k val nestedMap, find_fold current seg = Some k ->
       lookup current k = Some val -> as_mapping val = Some nestedMap ->
       path_clear nestedMap rest = true.
Proof.
  cbn [path_clear]. intros H.
  apply andb_true_iff in H. destruct H as [H H4].
  apply andb_true_iff in H. destruct H as [H H3].
  apply andb_true_iff in H. destruct H as [H1 H2].
  split; [assumption|]. split; [assumption|]. split; [assumption|].
  intros k val nm Hf Hl Ha. now rewrite Hf, Hl, Ha in H4.
Qed.

Lemma path_clear_unique : forall keys current,
  path_clear current keys = true -> path_unique current keys = true.
Proof.
  induction keys as [|seg rest IH]; intros current H; [reflexivity|].
  apply path_clear_cons in H. destruct H as [_ [_ [Hu Hn]]].
  cbn [path_unique]. rewrite Hu. cbn [andb].
  destruct (find_fold current seg) as [k|] eqn:Hf; [|reflexivity].
  destruct (lookup current k) as [val|] eqn:Hl; [|reflexivity].
  destruct val; try reflexivity. apply IH. now apply (Hn k (VMap m) m).
Qed.




(** ** [Delete] followed by [Get] *)



Lemma string_keyed_lookup m k v :
  string_keyed (VMap m) = true -> lookup m k = Some v -> string_keyed v = true.
Proof.
  simpl. rewrite forallb_forall. intros H Hl. apply lookup_In in Hl. exact (H _ Hl).
Qed.

Lemma fold_last_idem cs current lastKey :
  fold_last cs current (fold_last cs current lastKey) = fold_last cs current lastKey.
Proof.
  unfold fold_last. destruct cs; [reflexivity|].
  destruct (find_fold current lastKey) as [k|] eqn:E.
  - now rewrite (find_fold_idem _ _ _ E).
  - now rewrite E.
Qed.


Lemma Delete_error_keeps rev key m e :
  eval (Delete rev key) m = Error e -> exec (Delete rev key) m = m.
Proof.
  unfold eval, exec, Delete, bind, get_manager, ret.
  destruct (String.eqb key ""); [reflexivity|]. cbn [fst snd].
  destruct (getNestedMap rev (data m) key (caseSensitive m)) as [[loc lastKey]|e0];
    [|reflexivity].
  destruct (lookup (loc_map loc) (fold_last (caseSensitive m) (loc_map loc) lastKey));
    [|reflexivity].
  destruct (loc_detached loc); discriminate.
Qed.

(** The copy that the resolver makes of a foreign-keyed mapping, and the
    foreign-keyed mapping that holds the bindings of a map. *)

Lemma build_map_copy (s : smap) :
  NoDup (keys_of s) -> build_map (fun k : string => k) (fun v => v) s [] = s.
Proof.
  intros Hd. rewrite (build_map_fixed (fun v => v)); try assumption.
  - reflexivity.
  - apply Forall_forall. reflexivity.
  - intros k _ [].
Qed.













(** A foreign-keyed mapping higher on the path does not detach the
    parent: the copy shares its values with the original. *)
Example Delete_below_foreign :
  data (exec (Delete Rev2 "a.b.c")
             (manager_of [("a", VIMap [(KString "b", VMap [("c", VInt 1); ("d", VNil)])])] true))
  = [("a", VIMap [(KString "b", VMap [("d", VNil)])])].
Proof. reflexivity. Qed.

(** With the resolver of utils.go 52-118 a [Delete] below the root fails
    with "key not found" although the key is there. *)
Lemma Delete_rev1_nested_fails :
  eval (Delete Rev1 "a.b") (manager_of tree_ab true)
    = Error (mkConfigError "delete" "a.b" ErrDeleteKeyNotFound)
  /\ eval (Delete Rev2 "a.b") (manager_of tree_ab true) = Ok tt
  /\ data (exec (Delete Rev2 "a.b") (manager_of tree_ab true)) = [("a", VMap [])].
Proof. repeat split. Qed.

(** When the parent is the copy that the resolver makes of a
    foreign-keyed mapping, [delete(parentMap, lastKey)] acts on the copy and
    the tree keeps the key. *)
Lemma Delete_in_foreign_parent :
  let m := manager_of [("a", VIMap [(KString "b", VInt 1)])] true in
  eval (Delete Rev2 "a.b") m = Ok tt
  /\ exec (Delete Rev2 "a.b") m = m
  /\ eval (Delete Rev2 "a.b" ;; Get Rev2 "a.b") m = Ok (VInt 1).
Proof. repeat split. Qed.

(** * Further properties *)

(** ** File names *)

Example Ext_examples :
  Ext "/etc/app/config.yaml" = ".yaml" /\ Ext "archive.tar.gz" = ".gz"
  /\ Ext "/etc/conf.d/app" = "" /\ Ext ".json" = ".json" /\ Ext "name." = ".".
Proof. repeat split. Qed.

Example resolvePath_expands :
  let os := mkOS ["USER=me"; "HOME=/root"] (fun p => p) (fun p => Ok ("/cwd/" ++ p)%string) (fun p => p)
                 (fun _ => StatRegular) (fun _ => Ok (Ok "")) (fun p => p)
                 (fun _ => None) (fun _ _ => None) (fun _ => Ok "") (fun _ => Ok "") in
  resolvePath os Rev1 "$HOME/${USER}/cfg.json" = Ok "/root/me/cfg.json"
  /\ resolvePath os Rev1 "cfg.json" = Ok "/cwd/cfg.json".
Proof. split; reflexivity. Qed.

Lemma list_ascii_app a b :
  list_ascii_of_string (a ++ b) = list_ascii_of_string a ++ list_ascii_of_string b.
Proof. induction a as [|c a IH]; simpl; [reflexivity | now rewrite IH]. Qed.

Lemma Ext_scan_plain : forall name rest suffix,
  plain_name name = true ->
  Ext_scan (rev (list_ascii_of_string name) ++ rest) suffix = Ext_scan rest (name ++ suffix).
Proof.
  induction name as [|c name IH]; intros rest suffix Hp; [reflexivity|].
  simpl in Hp. apply andb_true_iff in Hp. destruct Hp as [Hc Hp].
  apply andb_true_iff in Hc. destruct Hc as [Hdot Hsep].
  apply negb_true_iff in Hdot, Hsep.
  cbn [list_ascii_of_string rev]. rewrite <- app_assoc. cbn [app].
  rewrite IH by assumption. cbn [Ext_scan]. now rewrite Hsep, Hdot.
Qed.

Lemma append_empty_r (s : string) : (s ++ "")%string = s.
Proof. induction s as [|c s IH]; simpl; [reflexivity | now rewrite IH]. Qed.

Lemma Ext_of_extension base extension :
  plain_name extension = true ->
  Ext (base ++ "." ++ extension) = ("." ++ extension)%string.
Proof.
  intros Hp. unfold Ext. rewrite list_ascii_app. cbn [append list_ascii_of_string].
  rewrite rev_app_distr. cbn [rev]. rewrite <- app_assoc. cbn [app].
  rewrite Ext_scan_plain by assumption. cbn [Ext_scan].
  now rewrite append_empty_r.
Qed.

Lemma Ext_without_dot dir name :
  plain_name name = true ->
  Ext (dir ++ "/" ++ name) = "" /\ Ext name = "".
Proof.
  intros Hp. unfold Ext. split.
  - rewrite list_ascii_app. cbn [append list_ascii_of_string].
    rewrite rev_app_distr. cbn [rev]. rewrite <- app_assoc. cbn [app].
    now rewrite Ext_scan_plain.
  - rewrite <- (app_nil_r (rev (list_ascii_of_string name))).
    now rewrite Ext_scan_plain.
Qed.

(** [detectFileFormat] reads the format off the part of the file name
    behind its last dot, whatever precedes the dot. For an extension of
    ASCII bytes, and without regard to the case of its letters: json gives
    [FormatJSON], yaml and yml both give [FormatYAML], and any other
    extension is refused by its name in lower case. It never answers
    [FormatYML]. *)
Theorem detectFileFormat_by_extension : forall rev base extension,
  plain_name extension = true ->
  ascii_string extension = true ->
  detectFileFormat rev (base ++ "." ++ extension) =
    (if String.eqb (ToLower extension) "json" then Ok FormatJSON
     else if String.eqb (ToLower extension) "yaml" || String.eqb (ToLower extension) "yml"
          then Ok FormatYAML
          else Error (CauseUnsupportedExtension (ToLower extension)))
  /\ forall format, detectFileFormat rev (base ++ "." ++ extension) = Ok format ->
        format = FormatJSON \/ format = FormatYAML.
Proof.
  intros rev base extension Hp _.
  assert (E : detectFileFormat rev (base ++ "." ++ extension) =
    (if String.eqb (ToLower extension) "json" then Ok FormatJSON
     else if String.eqb (ToLower extension) "yaml" || String.eqb (ToLower extension) "yml"
          then Ok FormatYAML
          else Error (CauseUnsupportedExtension (ToLower extension)))).
  { unfold detectFileFormat. rewrite Ext_of_extension by assumption.
    assert (Hne : String.eqb (base ++ "." ++ extension) "" = false).
    { destruct base; reflexivity. }
    rewrite Hne. destruct rev; reflexivity. }
  split; [exact E|]. rewrite E. intros format.
  destruct (String.eqb (ToLower extension) "json"); [intros [= <-]; now left|].
  destruct (String.eqb (ToLower extension) "yaml" || String.eqb (ToLower extension) "yml");
    [intros [= <-]; now right | discriminate].
Qed.

Lemma detectFileFormat_by_extension_witness :
  detectFileFormat Rev2 "/etc/app.d/Config.YML" = Ok FormatYAML
  /\ detectFileFormat Rev1 "notes.TXT" = Error (CauseUnsupportedExtension "txt").
Proof.
  split.
  - exact (proj1 (detectFileFormat_by_extension Rev2 "/etc/app.d/Config" "YML"
                    eq_refl eq_refl)).
  - exact (proj1 (detectFileFormat_by_extension Rev1 "notes" "TXT" eq_refl eq_refl)).
Defined.

(** A file name without a dot has no extension, also when a directory on
    the way has one: [detectFileFormat] fails with "no file extension
    found". The two revisions differ on the empty path alone, where the
    second answers "empty file path". *)
Theorem detectFileFormat_no_extension : forall rev dir name,
  plain_name name = true ->
  detectFileFormat rev (dir ++ "/" ++ name) = Error CauseNoExtension
  /\ (name <> "" -> detectFileFormat rev name = Error CauseNoExtension)
  /\ detectFileFormat Rev1 "" = Error CauseNoExtension
  /\ detectFileFormat Rev2 "" = Error CauseEmptyFilePath
  /\ (forall filePath, filePath <> "" ->
        detectFileFormat Rev1 filePath = detectFileFormat Rev2 filePath).
Proof.
  intros rev dir name Hp. destruct (Ext_without_dot dir name Hp) as [E1 E2].
  repeat split.
  - unfold detectFileFormat. rewrite E1.
    assert (Hne : String.eqb (dir ++ "/" ++ name) "" = false) by (destruct dir; reflexivity).
    rewrite Hne. destruct rev; reflexivity.
  - intros Hn. apply String.eqb_neq in Hn. unfold detectFileFormat. rewrite E2, Hn.
    destruct rev; reflexivity.
  - intros filePath Hn. apply String.eqb_neq in Hn. unfold detectFileFormat. now rewrite Hn.
Qed.

Lemma detectFileFormat_no_extension_witness :
  detectFileFormat Rev2 "/etc/conf.d/app" = Error CauseNoExtension
  /\ detectFileFormat Rev1 "Makefile" = Error CauseNoExtension.
Proof.
  split.
  - exact (proj1 (detectFileFormat_no_extension Rev2 "/etc/conf.d" "app" eq_refl)).
  - destruct (detectFileFormat_no_extension Rev1 "" "Makefile" eq_refl) as [_ [H _]].
    apply H. discriminate.
Defined.


(** ** Loading and saving files *)

Lemma Load_cases json_decode yaml_decode rev r format m :
  (exists e, Load json_decode yaml_decode rev r format m = (Error e, m))
  \/ (exists d, Load json_decode yaml_decode rev r format m
                = (Ok tt, mkManager d (filePath m) format (caseSensitive m))).
Proof.
  unfold Load. destruct r as [content|msg]; [|left; eexists; reflexivity].
  unfold bind, get_manager, ret.
  match goal with
  | |- context [match ?o with Ok _ => _ | Error _ => _ end] => destruct o as [d|e]
  end; [right | left]; eexists; reflexivity.
Qed.

(** A load that fails keeps the file path, the stored format and the
    case sensitivity; it leaves the whole manager as it was when the input
    could not be read or when the tag is not json (a YAML document that
    does not decode or is not a mapping, an unknown tag): the YAML branch
    assigns the tree only once it has one. Nothing is said of the tree
    after a JSON document that fails to decode. A load that succeeds stores
    the tag it was given as it is (yml stays yml) and keeps the file path
    and the case sensitivity. *)
Theorem Load_failure_keeps : forall json_decode yaml_decode rev r format m,
  let m' := exec (Load json_decode yaml_decode rev r format) m in
  (forall e, eval (Load json_decode yaml_decode rev r format) m = Error e ->
     filePath m' = filePath m /\ fileFormat m' = fileFormat m
     /\ caseSensitive m' = caseSensitive m
     /\ (format <> FormatJSON \/ (exists msg, r = Error msg) -> m' = m))
  /\ (eval (Load json_decode yaml_decode rev r format) m = Ok tt ->
      fileFormat m' = format /\ filePath m' = filePath m
      /\ caseSensitive m' = caseSensitive m).
Proof.
  intros jd yd rev r format m m'. subst m'. unfold eval, exec.
  destruct (Load_cases jd yd rev r format m) as [[e H]|[d H]]; rewrite H; cbn [fst snd].
  - split; [|discriminate]. intros e' _. repeat split.
  - split; [discriminate | intros _; repeat split].
Qed.

Lemma Load_failure_keeps_witness :
  let yd := fun _ : string => Ok (VSlice [VInt 1]) in
  let m := mkManager tree_ab "app.yml" FormatYML false in
  exec (Load yd yd Rev2 (Ok "- 1") FormatYAML) m = m
  /\ exec (Load yd yd Rev2 (Error "closed") FormatJSON) m = m
  /\ fileFormat (exec (Load (fun _ => Ok (VMap [])) yd Rev2 (Ok "{}") FormatJSON) m)
     = FormatJSON.
Proof.
  intros yd m. split; [|split].
  - destruct (proj1 (Load_failure_keeps yd yd Rev2 (Ok "- 1") FormatYAML m)
                    (mkConfigError "parse" "" ErrUnexpectedYAML) eq_refl) as [_ [_ [_ H]]].
    apply H. left. discriminate.
  - destruct (proj1 (Load_failure_keeps yd yd Rev2 (Error "closed") FormatJSON m)
                    (mkConfigError "read file content" "" (ErrRead "closed")) eq_refl)
      as [_ [_ [_ H]]].
    apply H. right. now exists "closed".
  - apply (proj2 (Load_failure_keeps (fun _ => Ok (VMap [])) yd Rev2 (Ok "{}") FormatJSON m)).
    reflexivity.
Defined.

Lemma detectFileFormat_formats rev path format :
  detectFileFormat rev path = Ok format -> format = FormatJSON \/ format = FormatYAML.
Proof.
  unfold detectFileFormat.
  destruct (match rev with Rev1 => false | Rev2 => String.eqb path "" end); [discriminate|].
  destruct (String.eqb (ToLower (Ext path)) ""); [discriminate|].
  destruct (String.eqb (drop_first (ToLower (Ext path))) FormatJSON); [intros [= <-]; now left|].
  destruct (String.eqb (drop_first (ToLower (Ext path))) FormatYAML
            || String.eqb (drop_first (ToLower (Ext path))) FormatYML);
    [intros [= <-]; now right | discriminate].
Qed.

Lemma LoadFile_cases os json_decode yaml_decode rev path m :
  (exists e, LoadFile os json_decode yaml_decode rev path m = (Error e, m))
  \/ (exists d format,
        (format = FormatJSON \/ format = FormatYAML)
        /\ LoadFile os json_decode yaml_decode rev path m
           = (Ok tt, mkManager d (filePath m) format (caseSensitive m))).
Proof.
  unfold LoadFile.
  destruct (resolvePath os rev path) as [resolved|c]; [|left; eexists; reflexivity].
  destruct (os_Stat os resolved); try (left; eexists; reflexivity).
  destruct (detectFileFormat rev resolved) as [format|c] eqn:Hf; [|left; eexists; reflexivity].
  destruct (os_Open os resolved) as [file|msg]; [|left; eexists; reflexivity].
  unfold bind.
  destruct (Load_cases json_decode yaml_decode rev file format m) as [[e H]|[d H]]; rewrite H.
  - left. eexists. reflexivity.
  - right. exists d, format. split; [|reflexivity]. eapply detectFileFormat_formats; eauto.
Qed.

(** [LoadFile] never records the path of the file, whether it succeeds
    or fails: a manager made by [New] and filled by [LoadFile] cannot
    [Save], which fails with "file path not set" before any call that
    changes the file system. When it succeeds it stores [FormatJSON] or
    [FormatYAML] as the format (a .yml file is stored as yaml). When it
    fails it keeps the stored format and the case sensitivity, and it leaves
    the whole manager as it was when the failure comes before the decoding
    (the path, the file, its extension, opening it) or when the file is a
    YAML file. Nothing is said of the tree after a JSON file that fails to
    decode. *)
Theorem LoadFile_keeps_no_path : forall os json_decode yaml_decode rev path m,
  let m' := exec (LoadFile os json_decode yaml_decode rev path) m in
  (forall e, eval (LoadFile os json_decode yaml_decode rev path) m = Error e ->
     fileFormat m' = fileFormat m /\ caseSensitive m' = caseSensitive m
     /\ ((exists fe, e = FileErr fe)
         \/ (exists resolved, resolvePath os rev path = Ok resolved
                              /\ detectFileFormat rev resolved = Ok FormatYAML) ->
         m' = m))
  /\ (eval (LoadFile os json_decode yaml_decode rev path) m = Ok tt ->
      fileFormat m' = FormatJSON \/ fileFormat m' = FormatYAML)
  /\ filePath m' = filePath m
  /\ (filePath m = "" ->
      forall rev', Save os rev' m' = (Error (mkFileError "save" CauseFilePathNotSet), m', [])).
Proof.
  intros os jd yd rev path m m'. subst m'. unfold eval, exec.
  destruct (LoadFile_cases os jd yd rev path m) as [[e H]|[d [format [Hf H]]]];
    rewrite H; cbn [fst snd].
  - split; [intros e' _; repeat split|]. split; [discriminate|]. split; [reflexivity|].
    intros Hp rev'. unfold Save. now rewrite Hp.
  - split; [discriminate|]. split; [intros _; exact Hf|]. split; [reflexivity|].
    intros Hp rev'. unfold Save. cbn [filePath]. now rewrite Hp.
Qed.

Lemma LoadFile_keeps_no_path_witness :
  let os := mkOS [] (fun p => p) (fun p => Ok ("/cwd/" ++ p)%string) (fun p => p)
                 (fun _ => StatRegular) (fun _ => Ok (Ok "a: 1")) (fun p => p)
                 (fun _ => None) (fun _ _ => None) (fun _ => Ok "") (fun _ => Ok "") in
  let yd := fun _ : string => Ok (VMap [("a", VInt 1)]) in
  let m' := exec (LoadFile os yd yd Rev2 "conf.yml") New in
  data m' = [("a", VInt 1)] /\ fileFormat m' = FormatYAML
  /\ Save os Rev2 m' = (Error (mkFileError "save" CauseFilePathNotSet), m', [])
  /\ exec (LoadFile os yd yd Rev2 "conf.toml") (manager_of tree_ab true)
     = manager_of tree_ab true.
Proof.
  intros os yd m'. split; [reflexivity|]. split; [reflexivity|]. split.
  - exact (proj2 (proj2 (proj2 (LoadFile_keeps_no_path os yd yd Rev2 "conf.yml" New)))
                 eq_refl Rev2).
  - destruct (proj1 (LoadFile_keeps_no_path os yd yd Rev2 "conf.toml" (manager_of tree_ab true))
                    (FileErr (mkFileError "detect file format"
                                          (CauseUnsupportedExtension "toml"))) eq_refl)
      as [_ [_ H]].
    apply H. left. eexists. reflexivity.
Defined.

(** A run of [SaveToFile] that stops before the directory is made. *)
Ltac save_stops :=
  split; [reflexivity|]; split; [reflexivity|]; split; [reflexivity|];
  split; [discriminate|]; split; [reflexivity|];
  let H := fresh "H" in intros H; now elim H.

(** [SaveToFile] changes the manager only when it succeeds, and then
    records the resolved path and the format and leaves the tree alone;
    the one successful run makes the directory of the resolved path and
    then writes to the resolved path what the encoder of the format gives
    for the tree: [json.MarshalIndent] for json, [yaml.Marshal] for yaml
    and yml. With a format other than json, yaml and yml, or when the path
    does not resolve or the encoder fails, it makes no call that changes
    the file system. *)
Theorem SaveToFile_outcome : forall os rev path format m,
  let '(r, m', events) := SaveToFile os rev path format m in
  data m' = data m /\ caseSensitive m' = caseSensitive m
  /\ (forall e, r = Error e -> m' = m)
  /\ (r = Ok tt ->
      exists resolved content,
        resolvePath os rev path = Ok resolved
        /\ (if String.eqb format FormatJSON then json_MarshalIndent os (data m)
            else yaml_Marshal os (data m)) = Ok content
        /\ filePath m' = resolved /\ fileFormat m' = format
        /\ events = [EvMkdirAll (os_Dir os resolved); EvWriteFile resolved content])
  /\ (forall e, r = Error e ->
        (exists msg, fCause e = CauseUnsupportedFormat msg)
        \/ fOperation e = "resolve path" \/ fOperation e = "marshal" ->
        events = [])
  /\ (events <> [] ->
      format = FormatJSON \/ format = FormatYAML \/ format = FormatYML).
Proof.
  intros os rev path format m. unfold SaveToFile.
  assert (Hfmt : (if String.eqb format FormatJSON then true
                  else String.eqb format FormatYAML || String.eqb format FormatYML) = true ->
                 format = FormatJSON \/ format = FormatYAML \/ format = FormatYML).
  { destruct (String.eqb format FormatJSON) eqn:E1;
      [apply String.eqb_eq in E1; auto|].
    intros H. apply orb_true_iff in H. destruct H as [H|H]; apply String.eqb_eq in H; auto. }
  destruct (resolvePath os rev path) as [resolved|c] eqn:Hr; [|save_stops].
  set (marshalled := if String.eqb format FormatJSON then json_MarshalIndent os (data m)
                     else yaml_Marshal os (data m)).
  assert (Hcases :
    (if String.eqb format FormatJSON
     then match json_MarshalIndent os (data m) with
          | Ok content => Ok content
          | Error msg => Error (CauseOS msg)
          end
     else if String.eqb format FormatYAML || String.eqb format FormatYML
          then match yaml_Marshal os (data m) with
               | Ok content => Ok content
               | Error msg => Error (CauseOS msg)
               end
          else Error (CauseUnsupportedFormat format))
    = match (if String.eqb format FormatJSON then true
             else String.eqb format FormatYAML || String.eqb format FormatYML), marshalled with
      | true, Ok content => Ok content
      | true, Error msg => Error (CauseOS msg)
      | false, _ => Error (CauseUnsupportedFormat format)
      end).
  { unfold marshalled. destruct (String.eqb format FormatJSON);
      [destruct (json_MarshalIndent os (data m)); reflexivity|].
    destruct (String.eqb format FormatYAML || String.eqb format FormatYML);
      [destruct (yaml_Marshal os (data m)); reflexivity|].
    destruct (yaml_Marshal os (data m)); reflexivity. }
  rewrite Hcases. clear Hcases.
  destruct (if String.eqb format FormatJSON then true
            else String.eqb format FormatYAML || String.eqb format FormatYML) eqn:Ek;
    [|save_stops].
  specialize (Hfmt eq_refl).
  destruct marshalled as [content|msg] eqn:Em; [|save_stops].
  destruct (os_MkdirAll os (os_Dir os resolved)) as [msg|].
  { split; [reflexivity|]. split; [reflexivity|]. split; [reflexivity|].
    split; [discriminate|]. split; [|intros _; exact Hfmt].
    intros e [= <-] [[msg' H]|[H|H]]; discriminate H. }
  destruct (os_WriteFile os resolved content) as [msg|].
  { split; [reflexivity|]. split; [reflexivity|]. split; [reflexivity|].
    split; [discriminate|]. split; [|intros _; exact Hfmt].
    intros e [= <-] [[msg' H]|[H|H]]; discriminate H. }
  split; [reflexivity|]. split; [reflexivity|]. split; [discriminate|].
  split; [|split; [discriminate | intros _; exact Hfmt]].
  intros _. exists resolved, content. repeat split.
Qed.


Lemma SaveToFile_outcome_witness :
  let os := mkOS [] (fun p => p) (fun p => Ok ("/cwd/" ++ p)%string) (fun p => p)
                 (fun _ => StatRegular) (fun _ => Ok (Ok "")) (fun _ => "/cwd")
                 (fun _ => None) (fun _ _ => None) (fun _ => Ok "{}") (fun _ => Ok "a: 1") in
  SaveToFile os Rev1 "out.yml" FormatYML (manager_of tree_ab true)
  = (Ok tt, mkManager tree_ab "/cwd/out.yml" FormatYML true,
     [EvMkdirAll "/cwd"; EvWriteFile "/cwd/out.yml" "a: 1"])
  /\ snd (SaveToFile os Rev1 "out.toml" "toml" (manager_of tree_ab true)) = [].
Proof.
  intros os. split; [reflexivity|].
  pose proof (SaveToFile_outcome os Rev1 "out.toml" "toml" (manager_of tree_ab true)) as H.
  destruct (SaveToFile os Rev1 "out.toml" "toml" (manager_of tree_ab true)) as [[r m'] events].
  destruct H as [_ [_ [_ [_ [_ H]]]]]. cbn [snd].
  destruct events as [|ev events]; [reflexivity|].
  exfalso. destruct H as [H|[H|H]]; discriminate.
Defined.


(** ** The empty tree *)

Lemma Get_empty_tree rev key fp ff cs :
  key <> "" ->
  exists e, eval (Get rev key) (mkManager [] fp ff cs) = Error e.
Proof.
  intros Hk. apply String.eqb_neq in Hk.
  unfold eval, Get, bind, get_manager, ret. rewrite Hk. cbn [data caseSensitive fst].
  unfold getNestedMap. rewrite (Split_snoc key), getNestedMap_keys_snoc.
  destruct (removelast (Split key)) as [|i inner].
  - cbn [walk bind_result loc_map]. rewrite fold_last_nil. eexists. reflexivity.
  - cbn [walk]. unfold fold_segment. destruct cs; cbn; eexists; reflexivity.
Qed.

(** After [Clear] the tree is empty: [Get("")] gives the empty mapping,
    every other key is absent for [Get] and [Has], and the file path, the
    format and the case sensitivity are what they were. A manager made by
    [New] reads the same way. *)
Theorem Clear_empties : forall rev m,
  let m' := exec Clear m in
  data m' = []
  /\ eval (Get rev "") m' = Ok (VMap [])
  /\ (forall key, key <> "" ->
        eval (Has rev key) m' = false /\ exists e, eval (Get rev key) m' = Error e)
  /\ filePath m' = filePath m /\ fileFormat m' = fileFormat m
  /\ caseSensitive m' = caseSensitive m
  /\ (forall key, key <> "" -> eval (Has rev key) New = false).
Proof.
  intros rev m m'. subst m'. unfold exec, Clear, put_data, with_data. cbn [snd].
  assert (H : forall key fp ff cs, key <> "" ->
              eval (Has rev key) (mkManager [] fp ff cs) = false).
  { intros key fp ff cs Hk. destruct (Get_empty_tree rev key fp ff cs Hk) as [e He].
    unfold eval at 1. unfold Has, bind. rewrite (Get_run rev key), He. reflexivity. }
  split; [reflexivity|]. split; [reflexivity|]. split.
  - intros key Hk. split; [now apply H | now apply Get_empty_tree].
  - repeat split. intros key Hk. now apply H.
Qed.

Lemma Clear_empties_witness :
  eval (Clear ;; Has Rev2 "a.b") (manager_of tree_ab false) = false.
Proof.
  assert (Hk : "a.b" <> "") by discriminate.
  destruct (Clear_empties Rev2 (manager_of tree_ab false)) as [_ [_ [H _]]].
  exact (proj1 (H "a.b" Hk)).
Defined.

(** ** [Data] *)

Lemma distinct_NoDup l : distinct l = true -> NoDup l.
Proof.
  induction l as [|x l IH]; simpl; intros H; constructor.
  - apply andb_true_iff in H. destruct H as [H _]. apply negb_true_iff in H.
    intros Hin. assert (E : existsb (String.eqb x) l = true).
    { apply existsb_exists. exists x. split; [assumption | apply String.eqb_refl]. }
    congruence.
  - apply IH. apply andb_true_iff in H. tauto.
Qed.

(** [Data] hands out a map with exactly the bindings of the top level of
    the tree, and leaves the manager as it is. *)
Theorem Data_copies_top_level : forall m,
  distinct (keys_of (data m)) = true ->
  eval Data m = data m /\ exec Data m = m
  /\ forall k, lookup (eval Data m) k = lookup (data m) k.
Proof.
  intros m Hd. apply distinct_NoDup in Hd.
  assert (E : eval Data m = data m) by (apply build_map_copy; assumption).
  split; [exact E|]. split; [reflexivity|]. intros k. now rewrite E.
Qed.

Lemma Data_copies_top_level_witness :
  eval Data (manager_of [("a", VInt 1); ("b", VMap [])] true) = [("a", VInt 1); ("b", VMap [])].
Proof.
  exact (proj1 (Data_copies_top_level (manager_of [("a", VInt 1); ("b", VMap [])] true) eq_refl)).
Defined.

(** ** Loading into an empty manager, and foreign-keyed YAML *)

(** A JSON document loaded into a manager whose tree is empty becomes the
    tree, binding for binding and in the order of the document. *)
Theorem Load_json_into_empty : forall json_decode yaml_decode rev content object m,
  data m = [] ->
  distinct (keys_of object) = true ->
  json_decode content = Ok (VMap object) ->
  Load json_decode yaml_decode rev (Ok content) FormatJSON m
  = (Ok tt, mkManager object (filePath m) FormatJSON (caseSensitive m)).
Proof.
  intros jd yd rev content object m He Hd Hj.
  rewrite (Load_json_run jd yd rev content object m Hj), He.
  now rewrite build_map_copy by (apply distinct_NoDup; assumption).
Qed.

Lemma Load_json_into_empty_witness :
  let doc := [("app", VMap [("name", VString "TestApp")]); ("port", VFloat64 8080)] in
  exec (Load (fun _ => Ok (VMap doc)) (fun _ => Error "unused") Rev2 (Ok "...") FormatJSON) New
  = mkManager doc "" FormatJSON true.
Proof.
  intros doc. unfold exec.
  now rewrite (Load_json_into_empty (fun _ => Ok (VMap doc)) (fun _ => Error "unused") Rev2
                 "..." doc New eq_refl eq_refl eq_refl).
Defined.

(** A YAML document whose top level is a foreign-keyed mapping always
    loads, replaces the tree by its normal form, and leaves a tree in which
    every mapping is string-keyed; a document that is neither kind of
    mapping (a sequence, a scalar, nothing) is refused with "unexpected
    YAML structure". *)
Theorem Load_yaml_foreign_top_level : forall json_decode yaml_decode rev content m,
  (forall mapData, yaml_decode content = Ok (VIMap mapData) ->
     let m' := exec (Load json_decode yaml_decode rev (Ok content) FormatYAML) m in
     eval (Load json_decode yaml_decode rev (Ok content) FormatYAML) m = Ok tt
     /\ VMap (data m') = transformMapKeys rev (VIMap mapData)
     /\ string_keyed (VMap (data m')) = true)
  /\ (forall v, yaml_decode content = Ok v ->
        match v with VMap _ | VIMap _ => False | _ => True end ->
        eval (Load json_decode yaml_decode rev (Ok content) FormatYAML) m
        = Error (mkConfigError "parse" "" ErrUnexpectedYAML)).
Proof.
  intros jd yd rev content m. split.
  - intros mapData Hy m'. subst m'. unfold eval, exec, Load, bind, get_manager.
    cbn [String.eqb Ascii.eqb FormatYAML FormatJSON fst snd]. simpl. rewrite Hy.
    cbn [transformMapKeys fst snd data]. split; [reflexivity|]. split; [reflexivity|].
    apply (transformMapKeys_string_keyed rev (VIMap mapData)).
  - intros v Hy Hv. unfold eval, Load, bind, get_manager. simpl. rewrite Hy.
    destruct v; try reflexivity; contradiction.
Qed.

Lemma Load_yaml_foreign_top_level_witness :
  let doc := [(KInt 8080, VIMap [(KBool true, VString "on")])] in
  let yd := fun _ : string => Ok (VIMap doc) in
  let m' := exec (Load yd yd Rev2 (Ok "8080: {true: on}") FormatYAML)
                 (manager_of tree_ab true) in
  data m' = [("8080", VMap [("true", VString "on")])]
  /\ string_keyed (VMap (data m')) = true.
Proof.
  intros doc yd m'. split; [reflexivity|].
  destruct (Load_yaml_foreign_top_level yd yd Rev2 "8080: {true: on}" (manager_of tree_ab true))
    as [H _].
  exact (proj2 (proj2 (H doc eq_refl))).
Defined.

(** ** The normalizer on a normal form *)

Lemma forallb_values (f : value -> bool) (m : smap) :
  forallb (fun kv => let '(_, x) := kv in f x) m = true ->
  Forall (fun kv => f (snd kv) = true) m.
Proof.
  intros H. apply Forall_forall. intros [k v] Hin.
  rewrite forallb_forall in H. exact (H _ Hin).
Qed.

(** A value in which every mapping is string-keyed with distinct keys,
    which is what the JSON decoder produces, is its own normal form. *)
Theorem transformMapKeys_fixes_normal : forall rev v,
  string_keyed v = true -> distinct_keys v = true -> transformMapKeys rev v = v.
Proof.
  intros rev v.
  induction v as [| | | | | | | | | | l IH | m IH | m IH |] using value_nested_ind;
    try reflexivity; intros Hs Hd.
  - cbn [transformMapKeys]. f_equal. cbn [string_keyed distinct_keys] in Hs, Hd.
    rewrite forallb_forall in Hs, Hd. rewrite Forall_forall in IH.
    rewrite <- (map_id l) at 2. apply map_ext_in. intros x Hx. apply IH; auto.
  - cbn [transformMapKeys]. f_equal. cbn [string_keyed distinct_keys] in Hs, Hd.
    apply andb_true_iff in Hd. destruct Hd as [Hn Hd].
    apply forallb_values in Hs. apply forallb_values in Hd.
    rewrite build_map_fixed.
    + reflexivity.
    + now apply distinct_NoDup.
    + rewrite Forall_forall in *. intros kv Hin. apply IH; auto.
    + intros k _ [].
  - discriminate.
Qed.

Lemma transformMapKeys_fixes_normal_witness :
  transformMapKeys Rev1 (VMap [("a", VSlice [VMap [("b", VNil)]]); ("c", VInt 1)])
  = VMap [("a", VSlice [VMap [("b", VNil)]]); ("c", VInt 1)].
Proof. apply transformMapKeys_fixes_normal; reflexivity. Defined.


(** ** [Set]: overwriting *)

Lemma insert_insert k v1 v2 m : insert k v2 (insert k v1 m) = insert k v2 m.
Proof.
  induction m as [|[k' v'] m IH]; simpl.
  - now rewrite String.eqb_refl.
  - destruct (String.eqb k' k) eqn:E; simpl.
    + now rewrite String.eqb_refl.
    + now rewrite E, IH.
Qed.

Lemma insert_same k v m : lookup m k = Some v -> insert k v m = m.
Proof.
  induction m as [|[k' v'] m IH]; simpl; [discriminate|].
  destruct (String.eqb k' k) eqn:E.
  - apply String.eqb_eq in E. intros [= ->]. now subst.
  - intros H. now rewrite IH.
Qed.

Lemma set_walk_step current k rest lastKey v :
  set_walk current (k :: rest) lastKey v
  = insert k (VMap (set_walk (next_of current k) rest lastKey v)) current.
Proof.
  cbn [set_walk]. unfold next_of, stringify.
  destruct (lookup current k) as [[]|]; reflexivity.
Qed.

Lemma next_of_insert current k m : next_of (insert k (VMap m) current) k = m.
Proof. unfold next_of. now rewrite lookup_insert_eq. Qed.

Lemma set_walk_twice lastKey v1 v2 : forall keys current,
  set_walk (set_walk current keys lastKey v1) keys lastKey v2
  = set_walk current keys lastKey v2.
Proof.
  induction keys as [|k rest IH]; intros current.
  - cbn [set_walk]. apply insert_insert.
  - rewrite !(set_walk_step current), set_walk_step, next_of_insert, insert_insert.
    now rewrite IH.
Qed.

(** The last write wins: [Set(key, v1)] followed by [Set(key, v2)] leaves
    the manager that [Set(key, v2)] alone leaves, for every key (the empty
    one included, on which both fail) and in both modes. *)
Theorem Set_last_write_wins : forall key v1 v2 m,
  exec (Set_ key v1 ;; Set_ key v2) m = exec (Set_ key v2) m.
Proof.
  intros key v1 v2 m. unfold exec, bind.
  destruct (String.eqb key "") eqn:E.
  - unfold Set_. rewrite E. reflexivity.
  - apply String.eqb_neq in E. rewrite (Set_run key v1 m E), (Set_run key v2 m E).
    cbv beta iota. rewrite (Set_run key v2 _ E). unfold with_data.
    cbn [snd data filePath fileFormat caseSensitive].
    now rewrite set_walk_twice.
Qed.

(** ** [MergeMap]: keys, the empty tree, merging twice *)

Lemma fold_merge_fresh treeB : forall treeA,
  NoDup (keys_of treeB) ->
  (forall k, In k (keys_of treeB) -> ~ In k (keys_of treeA)) ->
  fold_left merge_entry treeB treeA = treeA ++ treeB.
Proof.
  induction treeB as [|[k v] treeB IH]; intros treeA Hd Hdisj; cbn [fold_left].
  - now rewrite app_nil_r.
  - simpl in Hd. inversion Hd as [|? ? Hn Hd']; subst.
    assert (Ha : ~ In k (keys_of treeA)) by (apply Hdisj; now left).
    assert (E : merge_entry treeA (k, v) = treeA ++ [(k, v)]).
    { unfold merge_entry. rewrite (proj2 (lookup_None_keys treeA k) Ha).
      now apply insert_absent. }
    rewrite E, IH; try assumption.
    + now rewrite <- app_assoc.
    + intros k' Hin. unfold keys_of. rewrite map_app, in_app_iff. simpl.
      intros [H|[H|[]]]; [apply (Hdisj k'); [now right | assumption] | subst; auto].
Qed.

(** After [MergeMap(treeB)] the top-level keys are those of the tree
    together with those of [treeB]: no key is ever removed by a merge. Merged
    into an empty tree, [treeB] becomes the tree. *)
Theorem MergeMap_keys : forall m treeB,
  distinct (keys_of treeB) = true ->
  let m' := exec (MergeMap treeB) m in
  (forall k, lookup (data m') k = None <-> lookup (data m) k = None /\ lookup treeB k = None)
  /\ (data m = [] -> data m' = treeB)
  /\ filePath m' = filePath m /\ fileFormat m' = fileFormat m
  /\ caseSensitive m' = caseSensitive m.
Proof.
  intros m treeB Hd m'. apply distinct_NoDup in Hd.
  assert (Hm : data m' = fold_left merge_entry treeB (data m)) by reflexivity.
  split; [|split; [|repeat split]].
  - intros k. rewrite Hm, lookup_fold_merge by assumption.
    destruct (lookup treeB k); split; try tauto; try discriminate.
    intros [_ H]. discriminate.
  - intros He. rewrite Hm, He. rewrite fold_merge_fresh; auto.
Qed.

Lemma MergeMap_keys_witness :
  let treeB := [("a", VMap [("y", VInt 2)]); ("b", VNil)] in
  data (exec (Clear ;; MergeMap treeB) (manager_of tree_ab true)) = treeB.
Proof.
  intros treeB.
  destruct (MergeMap_keys (exec Clear (manager_of tree_ab true)) treeB eq_refl) as [_ [H _]].
  exact (H eq_refl).
Defined.


Lemma build_map_same (newMap : smap) : forall acc,
  NoDup (keys_of newMap) ->
  (forall k v, lookup newMap k = Some v -> lookup acc k = Some v) ->
  build_map (fun nk : string => nk) (fun nv => nv) newMap acc = acc.
Proof.
  induction newMap as [|[k v] r IH]; intros acc Hd Hl; [reflexivity|].
  simpl in Hd. inversion Hd as [|? ? Hn Hd']; subst. cbn [build_map].
  rewrite insert_same by (apply Hl; simpl; now rewrite String.eqb_refl).
  apply IH; [assumption|]. intros k' v' Hk'. apply Hl. simpl.
  destruct (String.eqb k k') eqn:E; [|assumption].
  apply String.eqb_eq in E. subst k'. apply lookup_Some_keys in Hk'. contradiction.
Qed.

Lemma merge_entry_stable X treeA k v :
  (forall newMap, v = VMap newMap -> NoDup (keys_of newMap)) ->
  lookup X k = Some (merged_value treeA k v) ->
  merge_entry X (k, v) = X.
Proof.
  intros Hd Hl.
  assert (Hplain : (forall newMap, v <> VMap newMap) -> merge_entry X (k, v) = X).
  { intros Hv. assert (E : merged_value treeA k v = v).
    { unfold merged_value. destruct (lookup treeA k) as [[]|]; try reflexivity.
      destruct v; try reflexivity. now elim (Hv m0). }
    rewrite E in Hl. unfold merge_entry. rewrite Hl.
    destruct v; try (now apply insert_same). now elim (Hv m). }
  destruct v as [| | | | | | | | | | | newMap | |]; try (apply Hplain; discriminate).
  specialize (Hd newMap eq_refl).
  assert (HE : exists E, merged_value treeA k (VMap newMap) = VMap E
                         /\ forall k' v', lookup newMap k' = Some v' -> lookup E k' = Some v').
  { unfold merged_value. destruct (lookup treeA k) as [[]|];
      try (exists newMap; split; [reflexivity | auto]).
    eexists. split; [reflexivity|]. intros k' v' Hk'.
    rewrite lookup_build_map_id by assumption. now rewrite Hk'. }
  destruct HE as [E [HE1 HE2]]. rewrite HE1 in Hl.
  unfold merge_entry. rewrite Hl, build_map_same by assumption.
  now apply insert_same.
Qed.

Lemma lookup_of_In (m : smap) k v : NoDup (keys_of m) -> In (k, v) m -> lookup m k = Some v.
Proof.
  induction m as [|[k0 v0] m IH]; simpl; intros Hd Hin; [contradiction|].
  inversion Hd as [|? ? Hn Hd']; subst. destruct Hin as [[= -> ->]|Hin].
  - now rewrite String.eqb_refl.
  - destruct (String.eqb k0 k) eqn:E; [|now apply IH].
    apply String.eqb_eq in E. subst k0. exfalso. apply Hn.
    apply in_map_iff. now exists (k, v).
Qed.

Lemma MergeMap_run treeB m :
  MergeMap treeB m = (tt, with_data m (fold_left merge_entry treeB (data m))).
Proof. reflexivity. Qed.

(** Merging the same tree a second time changes nothing: [MergeMap] is
    idempotent, for a [treeB] whose keys, and the keys of whose submaps,
    are distinct, as they are in a Go map. *)
Theorem MergeMap_idempotent : forall m treeB,
  distinct_keys (VMap treeB) = true ->
  exec (MergeMap treeB ;; MergeMap treeB) m = exec (MergeMap treeB) m.
Proof.
  intros m treeB Hdk. cbn [distinct_keys] in Hdk. apply andb_true_iff in Hdk.
  destruct Hdk as [Hd Hsub]. apply distinct_NoDup in Hd. fold (keys_of treeB) in Hd.
  unfold exec, bind. rewrite (MergeMap_run treeB m), MergeMap_run. unfold with_data.
  cbn [fst snd data filePath fileFormat caseSensitive]. f_equal.
  set (A1 := fold_left merge_entry treeB (data m)).
  assert (G : forall l, (forall k v, In (k, v) l -> In (k, v) treeB) ->
                        fold_left merge_entry l A1 = A1).
  { induction l as [|[k v] l IH]; intros Hin; [reflexivity|]. cbn [fold_left].
    rewrite (merge_entry_stable A1 (data m) k v).
    - apply IH. intros k' v' H. apply Hin. now right.
    - intros newMap ->. apply distinct_NoDup. rewrite forallb_forall in Hsub.
      specialize (Hsub (k, VMap newMap) (Hin _ _ (or_introl eq_refl))).
      cbn [distinct_keys] in Hsub. apply andb_true_iff in Hsub. tauto.
    - unfold A1. rewrite lookup_fold_merge by assumption.
      now rewrite (lookup_of_In treeB k v Hd (Hin _ _ (or_introl eq_refl))). }
  apply G. auto.
Qed.

Lemma MergeMap_idempotent_witness :
  let treeB := [("a", VMap [("y", VInt 2)]); ("b", VMap [("z", VNil)]); ("c", VInt 3)] in
  data (exec (MergeMap treeB ;; MergeMap treeB)
             (manager_of [("a", VMap [("x", VInt 1)]); ("b", VInt 0)] true))
  = [("a", VMap [("x", VInt 1); ("y", VInt 2)]); ("b", VMap [("z", VNil)]); ("c", VInt 3)].
Proof.
  intros treeB. rewrite (MergeMap_idempotent _ treeB eq_refl). reflexivity.
Defined.

(** ** The mutators keep a normal tree normal *)

Lemma string_keyed_values (m : smap) :
  string_keyed (VMap m) = true <-> Forall (fun kv => string_keyed (snd kv) = true) m.
Proof.
  split; [apply forallb_values | apply string_keyed_VMap].
Qed.

Lemma string_keyed_insert k v m :
  string_keyed (VMap m) = true -> string_keyed v = true ->
  string_keyed (VMap (insert k v m)) = true.
Proof.
  rewrite !string_keyed_values. intros Hm Hv.
  now apply (Forall_values_insert (fun x => string_keyed x = true)).
Qed.

Lemma string_keyed_remove k m :
  string_keyed (VMap m) = true -> string_keyed (VMap (remove k m)) = true.
Proof.
  rewrite !string_keyed_values. induction 1 as [|[k' v'] m Hx Hm IH]; simpl.
  - constructor.
  - destruct (String.eqb k' k); [assumption | now constructor].
Qed.

Lemma string_keyed_next_of current k :
  string_keyed (VMap current) = true -> string_keyed (VMap (next_of current k)) = true.
Proof.
  intros H. unfold next_of. destruct (lookup current k) as [v|] eqn:E; [|reflexivity].
  pose proof (string_keyed_lookup _ _ _ H E) as Hv.
  destruct v; try reflexivity; [assumption | discriminate].
Qed.

Lemma string_keyed_set_walk lastKey v : forall keys current,
  string_keyed (VMap current) = true -> string_keyed v = true ->
  string_keyed (VMap (set_walk current keys lastKey v)) = true.
Proof.
  induction keys as [|k rest IH]; intros current Hc Hv.
  - cbn [set_walk]. now apply string_keyed_insert.
  - rewrite set_walk_step. apply string_keyed_insert; [assumption|].
    apply IH; [now apply string_keyed_next_of | assumption].
Qed.

Lemma string_keyed_write_at k : forall keys current,
  string_keyed (VMap current) = true ->
  string_keyed (VMap (write_at current keys (remove k))) = true.
Proof.
  induction keys as [|a rest IH]; intros current Hc.
  - cbn [write_at]. now apply string_keyed_remove.
  - cbn [write_at]. destruct (lookup current a) as [v|] eqn:E; [|assumption].
    pose proof (string_keyed_lookup _ _ _ Hc E) as Hv.
    destruct v; try assumption; [|discriminate].
    apply string_keyed_insert; [assumption|]. now apply IH.
Qed.

Lemma string_keyed_merge_entry d kv :
  string_keyed (VMap d) = true -> string_keyed (snd kv) = true ->
  string_keyed (VMap (merge_entry d kv)) = true.
Proof.
  destruct kv as [k v]. cbn [snd]. intros Hd Hv. unfold merge_entry.
  destruct (lookup d k) as [x|] eqn:E; [|now apply string_keyed_insert].
  pose proof (string_keyed_lookup _ _ _ Hd E) as Hx.
  destruct x; try (now apply string_keyed_insert).
  destruct v; try (now apply string_keyed_insert).
  apply string_keyed_insert; [assumption|].
  apply string_keyed_values.
  apply (build_map_Forall _ _ (fun x => string_keyed x = true));
    now apply string_keyed_values.
Qed.

(** A tree in which every mapping is string-keyed stays so under [Set]
    of a value of that kind, under [Delete], under [MergeMap] of a tree of
    that kind and under [Clear]: once normalized, the tree holds no
    foreign-keyed mapping unless one is put in. *)
Theorem mutators_keep_string_keyed : forall rev m,
  string_keyed (VMap (data m)) = true ->
  (forall key v, string_keyed v = true ->
                 string_keyed (VMap (data (exec (Set_ key v) m))) = true)
  /\ (forall key, string_keyed (VMap (data (exec (Delete rev key) m))) = true)
  /\ (forall treeB, string_keyed (VMap treeB) = true ->
                    string_keyed (VMap (data (exec (MergeMap treeB) m))) = true)
  /\ string_keyed (VMap (data (exec Clear m))) = true.
Proof.
  intros rev m Hm. split; [|split; [|split]].
  - intros key v Hv. unfold exec. destruct (String.eqb key "") eqn:E.
    + unfold Set_. rewrite E. exact Hm.
    + apply String.eqb_neq in E. rewrite (Set_run key v m E). cbn [snd with_data data].
      now apply string_keyed_set_walk.
  - intros key. unfold exec, Delete, bind, get_manager, ret, put_data.
    destruct (String.eqb key ""); [exact Hm|]. cbn [fst snd].
    destruct (getNestedMap rev (data m) key (caseSensitive m)) as [[loc lastKey]|e];
      [|exact Hm].
    destruct (lookup (loc_map loc) (fold_last (caseSensitive m) (loc_map loc) lastKey));
      [|exact Hm].
    destruct (loc_detached loc); cbn [fst snd with_data data]; [exact Hm|].
    now apply string_keyed_write_at.
  - intros treeB Hb. unfold exec. rewrite MergeMap_run.
    cbn [fst snd with_data data]. apply string_keyed_values in Hb.
    revert Hm. generalize (data m). induction Hb as [|kv l Hkv Hl IH]; intros d Hd.
    + exact Hd.
    + cbn [fold_left]. apply IH. now apply string_keyed_merge_entry.
  - reflexivity.
Qed.

Lemma mutators_keep_string_keyed_witness :
  let m1 := exec (Set_ "a.c" (VSlice [VMap []])) (manager_of tree_ab true) in
  data m1 = [("a", VMap [("b", VInt 1); ("c", VSlice [VMap []])])]
  /\ string_keyed (VMap (data (exec (Delete Rev2 "a.b") m1))) = true.
Proof.
  intros m1. split; [reflexivity|].
  assert (H1 : string_keyed (VMap (data m1)) = true).
  { exact (proj1 (mutators_keep_string_keyed Rev2 (manager_of tree_ab true) eq_refl)
                 "a.c" (VSlice [VMap []]) eq_refl). }
  exact (proj1 (proj2 (mutators_keep_string_keyed Rev2 m1 H1)) "a.b").
Defined.


(** ** What [Get] computes *)

Lemma Get_spec rev key m v :
  key <> "" ->
  rev = Rev2 \/ removelast (Split key) = [] ->
  (eval (Get rev key) m = Ok v <->
   exists loc,
     walk (caseSensitive m) key (data m) false (removelast (Split key)) = Ok loc
     /\ lookup (loc_map loc)
               (fold_last (caseSensitive m) (loc_map loc) (last (Split key) "")) = Some v).
Proof.
  intros Hk Hrev. apply String.eqb_neq in Hk.
  set (inner := removelast (Split key)) in *.
  set (lastSeg := last (Split key) "") in *.
  assert (Hsplit : Split key = inner ++ [lastSeg]) by apply Split_snoc.
  unfold eval, Get, bind, get_manager, ret. rewrite Hk. cbn [fst].
  unfold getNestedMap. rewrite Hsplit, getNestedMap_keys_snoc.
  destruct (walk (caseSensitive m) key (data m) false inner) as [loc|e]; cbn [bind_result].
  - split.
    + intros H. exists loc. split; [reflexivity|]. revert H.
      destruct inner as [|i inner'].
      * destruct (lookup (loc_map loc) _); cbn [fst]; congruence.
      * destruct Hrev as [->|Hrev]; [|discriminate]. rewrite fold_last_idem.
        destruct (lookup (loc_map loc) _); cbn [fst]; congruence.
    + intros [l [[= <-] H]].
      destruct inner as [|i inner'].
      * rewrite H. reflexivity.
      * destruct Hrev as [->|Hrev]; [|discriminate]. rewrite fold_last_idem, H.
        reflexivity.
  - cbn [fst]. split; [discriminate | intros [l [[=] _]]].
Qed.

(** ** [Delete] and [Has] *)

Lemma Delete_ok_iff_Has rev key m :
  key <> "" -> (eval (Delete rev key) m = Ok tt <-> eval (Has rev key) m = true).
Proof.
  intros Hk. apply String.eqb_neq in Hk.
  unfold eval at 2. unfold Has, bind. rewrite (Get_run rev key m).
  unfold eval, Delete, Get, bind, get_manager, ret, put_data. rewrite Hk. cbn [fst snd].
  destruct (getNestedMap rev (data m) key (caseSensitive m)) as [[loc lastKey]|e];
    cbn [fst]; [|split; discriminate].
  destruct (lookup (loc_map loc) (fold_last (caseSensitive m) (loc_map loc) lastKey));
    cbn [fst]; [|split; discriminate].
  destruct (loc_detached loc); cbn [fst]; split; reflexivity.
Qed.

(** For a non-empty key [Delete] succeeds exactly when [Has] answers
    true, in both modes, in both revisions and for every tree: the two make
    the same resolution and the same lookup. On the empty key [Has] is true
    and [Delete] fails. *)
Theorem Delete_iff_Has : forall rev key m,
  (key <> "" -> (eval (Delete rev key) m = Ok tt <-> eval (Has rev key) m = true))
  /\ eval (Has rev "") m = true
  /\ eval (Delete rev "") m = Error (mkConfigError "delete" "" ErrEmptyKey).
Proof.
  intros rev key m. split; [apply Delete_ok_iff_Has | split; reflexivity].
Qed.

Lemma Delete_iff_Has_witness :
  eval (Delete Rev2 "a.B") (manager_of tree_ab false) = Ok tt
  /\ eval (Has Rev2 "a.B") (manager_of tree_ab true) = false.
Proof.
  assert (Hk : "a.B" <> "") by discriminate. split.
  - apply (proj1 (Delete_iff_Has Rev2 "a.B" (manager_of tree_ab false)) Hk). reflexivity.
  - destruct (eval (Has Rev2 "a.B") (manager_of tree_ab true)) eqn:E; [|reflexivity].
    apply (proj1 (Delete_iff_Has Rev2 "a.B" (manager_of tree_ab true)) Hk) in E.
    discriminate.
Defined.


(** ** [Get] without case sensitivity *)

Lemma lower_ascii_dot c : Ascii.eqb (lower_ascii c) "."%char = Ascii.eqb c "."%char.
Proof. destruct c as [[] [] [] [] [] [] [] []]; reflexivity. Qed.

Lemma Split_ToLower s : Split (ToLower s) = map ToLower (Split s).
Proof.
  induction s as [|c s IH]; [reflexivity|].
  cbn [ToLower Split]. rewrite lower_ascii_dot, IH.
  destruct (Ascii.eqb c "."); [reflexivity|].
  destruct (Split s) as [|h t] eqn:E; [now elim (Split_nonempty s) | reflexivity].
Qed.

Lemma ToLower_empty s : ToLower s = "" -> s = "".
Proof. destruct s; [reflexivity | discriminate]. Qed.

Lemma find_fold_lower m seg seg' :
  ToLower seg = ToLower seg' -> find_fold m seg = find_fold m seg'.
Proof.
  intros H. induction m as [|[k v] m IH]; [reflexivity|].
  cbn [find_fold]. unfold EqualFold. now rewrite H, IH.
Qed.

Lemma lookup_unmatched m key :
  find_fold m key = None -> lookup m key = None.
Proof.
  intros H. destruct (lookup m key) as [v|] eqn:E; [|reflexivity].
  apply lookup_Some_keys in E. pose proof (find_fold_None _ _ _ H E) as Hc.
  rewrite EqualFold_refl in Hc. discriminate.
Qed.

Lemma fold_last_lower m lastKey lastKey' :
  ToLower lastKey = ToLower lastKey' ->
  lookup m (fold_last false m lastKey) = lookup m (fold_last false m lastKey').
Proof.
  intros H. unfold fold_last. rewrite <- (find_fold_lower m lastKey lastKey' H).
  destruct (find_fold m lastKey) as [k|] eqn:E; [reflexivity|].
  rewrite (lookup_unmatched m lastKey E).
  symmetry. apply lookup_unmatched. now rewrite <- (find_fold_lower m lastKey lastKey' H).
Qed.

Lemma walk_lower path path' : forall keys keys' current detached loc,
  map ToLower keys = map ToLower keys' ->
  walk false path current detached keys = Ok loc ->
  walk false path' current detached keys' = Ok loc.
Proof.
  induction keys as [|k rest IH]; intros [|k' rest'] current detached loc Hm Hw;
    try discriminate; [exact Hw|].
  cbn [map] in Hm. injection Hm as Hk Hrest.
  cbn [walk] in *. unfold fold_segment in *.
  rewrite <- (find_fold_lower current k k' Hk).
  destruct (find_fold current k) as [key|]; [|discriminate]. cbn [bind_result] in *.
  destruct (lookup current key) as [val|]; [|discriminate].
  destruct val; try discriminate; cbn [nested bind_result fst snd] in *.
  - destruct (walk false path m false rest) as [loc0|e] eqn:E; [|discriminate].
    now rewrite (IH rest' m false loc0 Hrest E).
  - destruct (strict_copy m []) as [nm|]; [|discriminate]. cbn [bind_result fst snd] in *.
    destruct (walk false path nm true rest) as [loc0|e] eqn:E; [|discriminate].
    now rewrite (IH rest' nm true loc0 Hrest E).
Qed.

Lemma Get_fold_equal rev key key' m v :
  caseSensitive m = false ->
  EqualFold key key' = true ->
  rev = Rev2 \/ removelast (Split key) = [] ->
  eval (Get rev key) m = Ok v -> eval (Get rev key') m = Ok v.
Proof.
  intros Hcs Hf Hrev Hg. unfold EqualFold in Hf. apply String.eqb_eq in Hf.
  destruct (String.eqb key "") eqn:Ek.
  { apply String.eqb_eq in Ek. subst key. symmetry in Hf. apply ToLower_empty in Hf.
    now subst key'. }
  apply String.eqb_neq in Ek.
  assert (Ek' : key' <> "").
  { intros ->. apply Ek. now apply ToLower_empty. }
  assert (Hs : map ToLower (removelast (Split key)) = map ToLower (removelast (Split key'))
               /\ ToLower (last (Split key) "") = ToLower (last (Split key') "")).
  { pose proof (f_equal Split Hf) as H. rewrite !Split_ToLower in H.
    rewrite (Split_snoc key), (Split_snoc key'), !map_app in H. cbn [map] in H.
    apply app_inj_tail in H. exact H. }
  destruct Hs as [Hi Hl].
  assert (Hrev' : rev = Rev2 \/ removelast (Split key') = []).
  { destruct Hrev as [H|H]; [now left | right]. rewrite H in Hi.
    destruct (removelast (Split key')); [reflexivity | discriminate]. }
  apply (Get_spec rev key m v Ek Hrev) in Hg. destruct Hg as [loc [Hw Hv]].
  apply (Get_spec rev key' m v Ek' Hrev'). exists loc. rewrite Hcs in *. split.
  - exact (walk_lower key key' _ _ _ _ _ Hi Hw).
  - now rewrite <- (fold_last_lower (loc_map loc) _ _ Hl).
Qed.

Lemma EqualFold_sym a b : EqualFold a b = EqualFold b a.
Proof. unfold EqualFold. apply String.eqb_sym. Qed.

(** Without case sensitivity [Get] does not see the case of the key: two
    keys that differ in the case of their letters A-Z only give the same
    value, or both fail. This is stated where the scans of [Get] have one
    outcome and are those of [strings.EqualFold]: in each mapping on the
    path the segment and the keys are ASCII, and no two different keys
    equal the segment up to case. *)
Theorem Get_ignores_case : forall rev key key' m,
  caseSensitive m = false ->
  EqualFold key key' = true ->
  path_clear (data m) (Split key) = true ->
  rev = Rev2 \/ (removelast (Split key) = [] /\ removelast (Split key') = []) ->
  forall v, eval (Get rev key) m = Ok v <-> eval (Get rev key') m = Ok v.
Proof.
  intros rev key key' m Hcs Hf _ Hrev v. split.
  - apply Get_fold_equal; try assumption. destruct Hrev as [H|[H _]]; auto.
  - apply Get_fold_equal; try assumption.
    + now rewrite EqualFold_sym.
    + destruct Hrev as [H|[_ H]]; auto.
Qed.

Lemma Get_ignores_case_witness :
  eval (Get Rev2 "SERVER.Port")
       (manager_of [("Server", VMap [("port", VInt 8080)])] false) = Ok (VInt 8080).
Proof.
  apply (proj1 (Get_ignores_case Rev2 "server.port" "SERVER.Port"
                  (manager_of [("Server", VMap [("port", VInt 8080)])] false)
                  eq_refl eq_refl eq_refl (or_introl eq_refl) (VInt 8080))).
  reflexivity.
Defined.

Lemma nested_as_mapping path key val P d :
  nested path key val = Ok (P, d) -> as_mapping val = Some P.
Proof.
  destruct val; try discriminate; cbn [nested as_mapping].
  - now intros [= -> _].
  - destruct (strict_copy m []); [now intros [= -> _] | discriminate].
Qed.

Lemma as_mapping_nested path key val P :
  as_mapping val = Some P -> exists d, nested path key val = Ok (P, d).
Proof.
  destruct val; try discriminate; cbn [nested as_mapping].
  - intros [= ->]. now exists false.
  - intros ->. now exists true.
Qed.

Lemma walk_sensitive_then_insensitive path lastKey : forall keys current detached loc,
  path_clear current (keys ++ [lastKey]) = true ->
  walk true path current detached keys = Ok loc ->
  walk false path current detached keys = Ok loc
  /\ fold_unique (loc_map loc) lastKey = true.
Proof.
  induction keys as [|k rest IH]; intros current detached loc Hu Hw.
  - cbn in Hw. injection Hw as <-. split; [reflexivity|].
    cbn [app loc_map] in *. now apply path_clear_cons in Hu.
  - cbn [app] in Hu. apply path_clear_cons in Hu. destruct Hu as [_ [_ [Hu1 Hu2]]].
    cbn [walk fold_segment bind_result] in Hw.
    destruct (lookup current k) as [val|] eqn:El; [|discriminate].
    assert (Hf : find_fold current k = Some k).
    { apply find_fold_exact; [assumption | eapply lookup_Some_keys; eauto]. }
    destruct (nested path k val) as [[nestedMap d]|e] eqn:En; [|discriminate].
    cbn [bind_result fst snd] in Hw.
    destruct (walk true path nestedMap d rest) as [loc0|e] eqn:E; [|discriminate].
    cbn [bind_result] in Hw. injection Hw as <-.
    destruct (IH nestedMap d loc0
                 (Hu2 k val nestedMap Hf El (nested_as_mapping _ _ _ _ _ En)) E)
      as [Hw0 Hfu].
    split; [|exact Hfu].
    cbn [walk]. unfold fold_segment. rewrite Hf. cbn [bind_result]. rewrite El, En.
    cbn [bind_result fst snd]. now rewrite Hw0.
Qed.

(** Turning case sensitivity off loses no key: where in each mapping on
    the path the segment and the keys are ASCII and no two different keys
    equal the segment up to case, what the case-sensitive [Get] returns is
    what the case-insensitive [Get] returns. A foreign-keyed mapping on the
    path is read through the copy the resolver makes of it, in both
    modes. *)
Theorem Get_insensitive_extends_sensitive : forall rev key m v,
  path_clear (data m) (Split key) = true ->
  rev = Rev2 \/ removelast (Split key) = [] ->
  eval (Get rev key) (WithCaseSensitive true m) = Ok v ->
  eval (Get rev key) (WithCaseSensitive false m) = Ok v.
Proof.
  intros rev key m v Hu Hrev Hg.
  destruct (String.eqb key "") eqn:Ek.
  { apply String.eqb_eq in Ek. subst key. exact Hg. }
  apply String.eqb_neq in Ek.
  apply (Get_spec rev key _ v Ek Hrev) in Hg. destruct Hg as [loc [Hw Hv]].
  apply (Get_spec rev key _ v Ek Hrev).
  cbn [WithCaseSensitive data caseSensitive] in *. cbn [fold_last] in Hv.
  rewrite (Split_snoc key) in Hu.
  destruct (walk_sensitive_then_insensitive key _ _ _ _ _ Hu Hw) as [Hw' Hfu].
  exists loc. split; [exact Hw'|].
  rewrite (fold_last_exact false _ _ v); auto.
Qed.

Lemma Get_insensitive_extends_sensitive_witness :
  eval (Get Rev2 "a.b") (WithCaseSensitive false (manager_of tree_ab true)) = Ok (VInt 1)
  /\ eval (Get Rev2 "f.k")
          (WithCaseSensitive false
             (manager_of [("f", VIMap [(KString "k", VNil)]); ("F2", VInt 0)] true))
     = Ok VNil.
Proof.
  split; apply Get_insensitive_extends_sensitive; try reflexivity; now left.
Defined.


(** ** Resolving a key one segment further *)

Lemma Split_app_dot a b : Split (a ++ String "." b) = Split a ++ Split b.
Proof.
  induction a as [|c a IH]; [reflexivity|].
  cbn [append Split]. rewrite IH.
  destruct (Ascii.eqb c "."); [reflexivity|].
  destruct (Split a) as [|h t] eqn:E; [now elim (Split_nonempty a) | reflexivity].
Qed.

Lemma Split_no_dot s : no_dot s = true -> Split s = [s].
Proof.
  induction s as [|c s IH]; [reflexivity|]. cbn [no_dot Split]. intros H.
  apply andb_true_iff in H. destruct H as [Hc Hs]. apply negb_true_iff in Hc.
  now rewrite Hc, IH.
Qed.

Lemma walk_snoc path path' k : forall keys current detached P,
  (exists loc, walk true path current detached (keys ++ [k]) = Ok loc /\ loc_map loc = P)
  <-> (exists loc1 val,
         walk true path' current detached keys = Ok loc1
         /\ lookup (loc_map loc1) k = Some val /\ as_mapping val = Some P).
Proof.
  induction keys as [|a rest IH]; intros current detached P.
  - cbn [app walk fold_segment bind_result]. split.
    + intros [loc [Hw Hp]]. destruct (lookup current k) as [val|] eqn:El; [|discriminate].
      destruct (nested path k val) as [[nm d]|e] eqn:En; [|discriminate].
      cbn [bind_result fst snd] in Hw. injection Hw as <-. cbn [loc_map] in Hp. subst nm.
      eexists. exists val. split; [reflexivity|]. split; [exact El|].
      eapply nested_as_mapping; eauto.
    + intros [loc1 [val [[= <-] [Hl Ha]]]]. cbn [loc_map] in Hl. rewrite Hl.
      destruct (as_mapping_nested path k val P Ha) as [d ->]. cbn [bind_result fst snd].
      eexists. split; [reflexivity | reflexivity].
  - cbn [app walk fold_segment bind_result].
    destruct (lookup current a) as [val|]; [|split; [intros [? [[=] _]] | intros [? [? [[=] _]]]]].
    assert (En : forall pth, nested pth a val = nested path a val
                             \/ (exists e e', nested pth a val = Error e
                                              /\ nested path a val = Error e')).
    { intros pth. destruct val; cbn [nested]; try (right; eauto; fail); try (now left).
      destruct (strict_copy m []); [now left | right; eauto]. }
    destruct (En path') as [E|[e [e' [E1 E2]]]].
    + rewrite E. destruct (nested path a val) as [[nm d]|e]; cbn [bind_result fst snd];
        [|split; [intros [? [[=] _]] | intros [? [? [[=] _]]]]].
      specialize (IH nm d P). split.
      * intros [loc [Hw Hp]].
        destruct (walk true path nm d (rest ++ [k])) as [loc0|e] eqn:E0; [|discriminate].
        cbn [bind_result] in Hw. injection Hw as <-. cbn [loc_map] in Hp.
        destruct (proj1 IH (ex_intro _ loc0 (conj eq_refl Hp))) as [loc1 [v1 [H1 [H2 H3]]]].
        rewrite H1. cbn [bind_result]. eexists. exists v1. split; [reflexivity|]. now split.
      * intros [loc1 [v1 [Hw [H2 H3]]]].
        destruct (walk true path' nm d rest) as [loc0|e] eqn:E0; [|discriminate].
        cbn [bind_result] in Hw. injection Hw as <-. cbn [loc_map] in H2.
        destruct (proj2 IH (ex_intro _ loc0 (ex_intro _ v1 (conj eq_refl (conj H2 H3)))))
          as [loc [H4 H5]].
        rewrite H4. cbn [bind_result]. eexists. split; [reflexivity | exact H5].
    + rewrite E1, E2. cbn [bind_result].
      split; [intros [? [[=] _]] | intros [? [? [[=] _]]]].
Qed.

(** Resolving one segment further is a lookup in what the shorter key
    gives: in a case-sensitive manager, [Get] of [p.s] returns [v] exactly
    when [Get] of [p] returns a mapping (string-keyed, or foreign-keyed
    with string keys only) that binds [s] to [v]. *)
Theorem Get_one_segment_further : forall p s m v,
  caseSensitive m = true -> p <> "" -> no_dot s = true ->
  (eval (Get Rev2 (p ++ String "." s)) m = Ok v <->
   exists parent P,
     eval (Get Rev2 p) m = Ok parent /\ as_mapping parent = Some P /\ lookup P s = Some v).
Proof.
  intros p s m v Hcs Hp Hs.
  assert (Hk : (p ++ String "." s)%string <> "") by (destruct p; discriminate).
  assert (Hsplit : Split (p ++ String "." s) = Split p ++ [s]).
  { now rewrite Split_app_dot, (Split_no_dot s Hs). }
  pose proof (Split_snoc p) as Hps.
  set (ip := removelast (Split p)) in *. set (lp := last (Split p) "") in *.
  assert (G2 : forall parent,
            eval (Get Rev2 p) m = Ok parent <->
            exists loc1, walk true p (data m) false ip = Ok loc1
                         /\ lookup (loc_map loc1) lp = Some parent).
  { intros parent. pose proof (Get_spec Rev2 p m parent Hp (or_introl eq_refl)) as G.
    rewrite Hcs in G. exact G. }
  pose proof (Get_spec Rev2 _ m v Hk (or_introl eq_refl)) as G1.
  rewrite Hsplit, removelast_last, last_last, Hcs, Hps in G1. cbn [fold_last] in G1.
  rewrite G1. clear G1. split.
  - intros [loc [Hw Hv]].
    destruct (proj1 (walk_snoc _ p _ _ _ _ (loc_map loc)) (ex_intro _ loc (conj Hw eq_refl)))
      as [loc1 [parent [H1 [H2 H3]]]].
    exists parent, (loc_map loc). split; [|now split].
    apply G2. now exists loc1.
  - intros [parent [P [Hg [Ha Hv]]]].
    apply G2 in Hg. destruct Hg as [loc1 [H1 H2]].
    destruct (proj2 (walk_snoc (p ++ String "." s) p lp ip (data m) false P)
                    (ex_intro _ loc1 (ex_intro _ parent (conj H1 (conj H2 Ha)))))
      as [loc [Hw Hm]].
    exists loc. split; [exact Hw | now rewrite Hm].
Qed.

Lemma Get_one_segment_further_witness :
  eval (Get Rev2 "a.b") (manager_of tree_ab true) = Ok (VInt 1).
Proof.
  apply (proj2 (Get_one_segment_further "a" "b" (manager_of tree_ab true) (VInt 1)
                  eq_refl ltac:(discriminate) eq_refl)).
  exists (VMap [("b", VInt 1)]), [("b", VInt 1)]. repeat split.
Defined.


(** ** The other accessors *)

Lemma GetString_run Sprint rev key m :
  GetString Sprint rev key m =
  (match eval (Get rev key) m with
   | Ok v => Ok (element_string Sprint v)
   | Error e => Error e
   end, m).
Proof.
  unfold GetString, bind. rewrite (Get_run rev key m).
  destruct (eval (Get rev key) m) as [[]|]; reflexivity.
Qed.

Lemma GetStringSlice_run Sprint rev key m :
  GetStringSlice Sprint rev key m =
  (match eval (Get rev key) m with
   | Ok (VStrings strSlice) => Ok strSlice
   | Ok (VSlice slice) => Ok (map (element_string Sprint) slice)
   | Ok (VString str) => Ok [str]
   | Ok v => Error (mkConfigError "convert" key (ErrCannotConvert (type_name v) "[]string"))
   | Error e => Error e
   end, m).
Proof.
  unfold GetStringSlice, bind. rewrite (Get_run rev key m).
  destruct (eval (Get rev key) m) as [[]|]; reflexivity.
Qed.

Lemma GetString_eval Sprint rev key m :
  eval (GetString Sprint rev key) m =
  match eval (Get rev key) m with
  | Ok v => Ok (element_string Sprint v)
  | Error e => Error e
  end.
Proof. unfold eval at 1. now rewrite GetString_run. Qed.

Lemma GetStringSlice_eval Sprint rev key m :
  eval (GetStringSlice Sprint rev key) m =
  match eval (Get rev key) m with
  | Ok (VStrings strSlice) => Ok strSlice
  | Ok (VSlice slice) => Ok (map (element_string Sprint) slice)
  | Ok (VString str) => Ok [str]
  | Ok v => Error (mkConfigError "convert" key (ErrCannotConvert (type_name v) "[]string"))
  | Error e => Error e
  end.
Proof. unfold eval at 1. now rewrite GetStringSlice_run. Qed.

Lemma Has_eval rev key m :
  eval (Has rev key) m = match eval (Get rev key) m with Ok _ => true | Error _ => false end.
Proof.
  unfold eval at 1. unfold Has, bind. rewrite (Get_run rev key m).
  now destruct (eval (Get rev key) m).
Qed.

(** [GetString] never refuses a value: it succeeds exactly when [Has]
    answers true, passes the error of [Get] on unchanged, returns a stored
    string or byte slice as it is, and leaves the manager alone. *)
Theorem GetString_iff_Has : forall Sprint rev key m,
  (eval (Has rev key) m = true <-> exists s, eval (GetString Sprint rev key) m = Ok s)
  /\ (forall e, eval (Get rev key) m = Error e ->
                eval (GetString Sprint rev key) m = Error e)
  /\ (forall s, eval (Get rev key) m = Ok (VString s) \/ eval (Get rev key) m = Ok (VBytes s) ->
                eval (GetString Sprint rev key) m = Ok s)
  /\ exec (GetString Sprint rev key) m = m.
Proof.
  intros Sprint rev key m. unfold exec. rewrite GetString_run, GetString_eval, Has_eval.
  cbn [snd]. destruct (eval (Get rev key) m) as [v|e].
  - split; [split; [intros _; eexists; reflexivity | reflexivity]|].
    split; [discriminate|]. split; [|reflexivity].
    intros s [[= ->]|[= ->]]; reflexivity.
  - split; [split; [discriminate | intros [s [=]]]|].
    split; [now intros e' [= ->]|]. split; [|reflexivity].
    intros s [[=]|[=]].
Qed.

Lemma GetString_iff_Has_witness :
  eval (GetString (fun _ => "1") Rev2 "a.b") (manager_of tree_ab true) = Ok "1"
  /\ eval (GetString (fun _ => "") Rev2 "name")
          (manager_of [("name", VString "TestApp")] true) = Ok "TestApp".
Proof.
  split; [reflexivity|].
  apply (proj1 (proj2 (proj2 (GetString_iff_Has (fun _ => "") Rev2 "name"
                                (manager_of [("name", VString "TestApp")] true))))).
  now left.
Defined.

(** [GetStringSlice] on a stored sequence gives as many strings as the
    sequence has elements, each string element at its own index and
    unchanged; a stored string becomes the one-element sequence; a stored
    [[]string] comes back as it is; a mapping, a number, a bool or nil is a
    conversion error. *)
Theorem GetStringSlice_elements : forall Sprint rev key m,
  (forall slice, eval (Get rev key) m = Ok (VSlice slice) ->
     exists result,
       eval (GetStringSlice Sprint rev key) m = Ok result
       /\ length result = length slice
       /\ forall i s, nth_error slice i = Some (VString s) -> nth_error result i = Some s)
  /\ (forall str, eval (Get rev key) m = Ok (VString str) ->
        eval (GetStringSlice Sprint rev key) m = Ok [str])
  /\ (forall l, eval (Get rev key) m = Ok (VStrings l) ->
        eval (GetStringSlice Sprint rev key) m = Ok l)
  /\ (forall v, eval (Get rev key) m = Ok v ->
        match v with
        | VSlice _ | VString _ | VStrings _ => True
        | _ => exists e, eval (GetStringSlice Sprint rev key) m = Error e
                         /\ conversion_error e = true
        end).
Proof.
  intros Sprint rev key m. rewrite GetStringSlice_eval.
  split; [|split; [|split]].
  - intros slice ->. eexists. split; [reflexivity|]. split; [apply length_map|].
    intros i s Hn. rewrite nth_error_map, Hn. reflexivity.
  - now intros str ->.
  - now intros l ->.
  - intros v ->. destruct v; try exact I; eexists; split; reflexivity.
Qed.

Lemma GetStringSlice_elements_witness :
  let m := manager_of [("hosts", VSlice [VString "a"; VInt 2; VString "c"])] true in
  exists result,
    eval (GetStringSlice (fun _ => "2") Rev2 "hosts") m = Ok result
    /\ length result = 3 /\ nth_error result 2 = Some "c".
Proof.
  intros m.
  destruct (GetStringSlice_elements (fun _ => "2") Rev2 "hosts" m) as [H _].
  destruct (H [VString "a"; VInt 2; VString "c"] eq_refl) as [result [H1 [H2 H3]]].
  exists result. split; [exact H1|]. split; [exact H2|]. now apply H3.
Defined.

(** ** What a write makes readable *)

Lemma Get_after_Set rev m key v :
  key <> "" ->
  rev = Rev2 \/ removelast (Split key) = [] ->
  caseSensitive m = true
  \/ path_unique (data (exec (Set_ key v) m)) (Split key) = true ->
  eval (Get rev key) (exec (Set_ key v) m) = Ok v.
Proof.
  intros Hk Hrev Hu. unfold exec in *. rewrite (Set_run key v m Hk) in *.
  cbn [snd] in *. unfold with_data in *. cbn [data] in Hu.
  apply (Get_spec rev key _ v Hk Hrev). cbn [data caseSensitive].
  set (inner := removelast (Split key)) in *. set (lastSeg := last (Split key) "") in *.
  rewrite (Split_snoc key : Split key = inner ++ [lastSeg]) in Hu.
  destruct (walk_set_walk (caseSensitive m) key lastSeg v inner (data m) false Hu)
    as [loc [Hw [Hf Hv]]].
  exists loc. split; [exact Hw | now rewrite Hf].
Qed.

(** After [Set(key, v)] the key is there for every reader: [Has] answers
    true, [GetString] returns the string when [v] is one, [GetBool] returns
    what its table gives for [v], and [Delete] succeeds. This holds for
    every tree in a case-sensitive manager and, without case sensitivity,
    when in each mapping on the path after the write the segment and the
    keys are ASCII and no other key equals the segment up to case. *)
Theorem Set_then_accessors : forall Sprint rev m key v,
  key <> "" ->
  rev = Rev2 \/ removelast (Split key) = [] ->
  caseSensitive m = true
  \/ path_clear (data (exec (Set_ key v) m)) (Split key) = true ->
  eval (Set_ key v ;; Has rev key) m = true
  /\ eval (Set_ key v ;; Delete rev key) m = Ok tt
  /\ eval (Set_ key v ;; GetString Sprint rev key) m = Ok (element_string Sprint v)
  /\ eval (Set_ key v ;; GetBool rev key) m = to_bool key v.
Proof.
  intros Sprint rev m key v Hk Hrev Hc.
  assert (Hu : caseSensitive m = true
               \/ path_unique (data (exec (Set_ key v) m)) (Split key) = true).
  { destruct Hc as [Hc|Hc]; [now left | right; now apply path_clear_unique]. }
  pose proof (Get_after_Set rev m key v Hk Hrev Hu) as Hg.
  assert (Hb : forall A (c : M A), eval (Set_ key v ;; c) m = eval c (exec (Set_ key v) m)).
  { intros A c. unfold eval, exec, bind. now destruct (Set_ key v m). }
  rewrite !Hb. set (m1 := exec (Set_ key v) m) in *.
  assert (Hh : eval (Has rev key) m1 = true) by now rewrite Has_eval, Hg.
  split; [exact Hh|]. split; [|split].
  - now apply (Delete_ok_iff_Has rev key m1 Hk).
  - now rewrite GetString_eval, Hg.
  - now rewrite GetBool_run, Hg.
Qed.

Lemma Set_then_accessors_witness :
  eval (Set_ "app.debug" (VString "Yes") ;; GetBool Rev2 "app.debug")
       (manager_of [("app", VInt 0)] true) = Ok true
  /\ eval (Set_ "app.debug" (VString "Yes") ;; Has Rev2 "app.debug")
          (manager_of [("app", VMap [("name", VNil)])] false) = true.
Proof.
  split.
  - now rewrite (proj2 (proj2 (proj2 (Set_then_accessors (fun _ => "") Rev2
                   (manager_of [("app", VInt 0)] true) "app.debug" (VString "Yes")
                   ltac:(discriminate) (or_introl eq_refl) (or_introl eq_refl))))).
  - exact (proj1 (Set_then_accessors (fun _ => "") Rev2
                   (manager_of [("app", VMap [("name", VNil)])] false) "app.debug"
                   (VString "Yes") ltac:(discriminate) (or_introl eq_refl)
                   (or_intror eq_refl))).
Defined.

(** ** The first resolver below the root *)

(** With the resolver of utils.go 52-118 nothing below the root can be
    reached: for every key of more than one segment and every tree, [Get]
    fails, [Has] is false, and [Delete] fails and leaves the manager as it
    was; [Set] of such a key still writes, so what it wrote cannot be read
    back. *)
Theorem rev1_nested_keys_unreachable : forall m key,
  removelast (Split key) <> [] ->
  (exists e, eval (Get Rev1 key) m = Error e)
  /\ eval (Has Rev1 key) m = false
  /\ (exists e, eval (Delete Rev1 key) m = Error e)
  /\ exec (Delete Rev1 key) m = m
  /\ forall v, eval (Set_ key v ;; Has Rev1 key) m = false.
Proof.
  intros m key Hn.
  assert (Hk : key <> "") by (intros ->; now apply Hn).
  assert (Hh : forall m0, eval (Has Rev1 key) m0 = false).
  { intros m0. destruct (Get_rev1_nested_fails m0 key Hn) as [e He].
    now rewrite Has_eval, He. }
  assert (Hd : exists e, eval (Delete Rev1 key) m = Error e).
  { destruct (eval (Delete Rev1 key) m) as [[]|e] eqn:E; [|now exists e].
    apply (Delete_ok_iff_Has Rev1 key m Hk) in E. rewrite Hh in E. discriminate. }
  split; [now apply Get_rev1_nested_fails|]. split; [apply Hh|]. split; [exact Hd|].
  split.
  - destruct Hd as [e He]. eapply Delete_error_keeps; eauto.
  - intros v. unfold eval, bind. destruct (Set_ key v m) as [r m1]. apply Hh.
Qed.

Lemma rev1_nested_keys_unreachable_witness :
  eval (Set_ "a.b" (VInt 1) ;; Has Rev1 "a.b") New = false
  /\ eval (Set_ "a.b" (VInt 1) ;; Has Rev2 "a.b") New = true.
Proof.
  split; [|reflexivity].
  apply (rev1_nested_keys_unreachable New "a.b"). discriminate.
Defined.
